(** * Flow-log parser: a shallow embedding of [code/flowlog_parser.py]

    The development follows the Python module top to bottom: the text
    primitives the parser relies on ([str.strip], [str.split], [str.lower],
    [int]), the two mapping-file helpers, the parser object with its
    dictionaries, the per-batch analysis [_analyze_flow_logs] and the
    driver [analyze_flow_logs].

    Conventions.
    - A Python [str] is a Rocq [string]; text is taken to be ASCII, which is
      what flow logs and the mapping tables contain.  Characters above 127
      are ordinary characters of the model: neither blank nor digit, and
      left alone by [lower].
    - A [dict] is a [gmap]; [defaultdict(int)] is a [gmap] read with
      default [0].
    - Python integers are unbounded: [Z] for parsed numbers, [nat] for the
      counters, which only ever count lines.
    - Exceptions are values of [exn]; a method that mutates [self] returns
      the mutated object together with the exception that escaped, if any.
    - Logging through [self.logger] and the [DEBUG] prints do not touch the
      parser state and are left out. *)

From Stdlib Require Import ZArith Ascii String.
From stdpp Require Import gmap strings list fin_maps.

Local Open Scope Z_scope.
Local Open Scope string_scope.

(** ** Constants *)

Definition TAGMAP_PORT_IDX : nat := 0.
Definition TAGMAP_PROTO_IDX : nat := 1.
Definition TAGMAP_TAG_IDX : nat := 2.

Definition IPMF_PORT_IDX : nat := 0.
Definition IPMF_PROTO_IDX : nat := 1.

Definition CHUNK_SIZE : nat := 1000.

Definition V2_FIELDS_COUNT : nat := 14.
Definition V2_DST_PORT_IDX : nat := 6.
Definition V2_PROTO_NUM_IDX : nat := 7.

(** ** Exceptions *)

Inductive exn : Type :=
  | ValueError
  | IndexError
  | KeyError
  | IOError
  | TagMappingsException
  | ProtoMappingsException
  | FlowLogParserException.

#[global] Instance exn_eq_dec : EqDecision exn.
Proof. solve_decision. Defined.

(** Fallible pure code: either a value or the exception raised. *)
Inductive result (A : Type) : Type :=
  | Ok (a : A)
  | Raise (e : exn).
Arguments Ok {A} a.
Arguments Raise {A} e.

#[global] Instance result_ret : MRet result := λ A a, Ok a.
#[global] Instance result_bind : MBind result := λ A B k m,
  match m with
  | Ok a => k a
  | Raise e => Raise e
  end.

(** ** Text primitives *)

Module Py.

(** [str.isspace] on ASCII: TAB..CR, FS..US and the space. *)
Definition isspace (c : ascii) : bool :=
  let n := nat_of_ascii c in
  ((9 <=? n) && (n <=? 13) || (28 <=? n) && (n <=? 32))%nat.

(** The blanks [int] strips around a number (C [isspace]). *)
Definition int_isspace (c : ascii) : bool :=
  let n := nat_of_ascii c in
  ((9 <=? n) && (n <=? 13) || (n =? 32))%nat.

Definition chars (s : string) : list ascii := list_ascii_of_string s.
Definition str (l : list ascii) : string := string_of_list_ascii l.

Fixpoint dropwhile (p : ascii → bool) (l : list ascii) : list ascii :=
  match l with
  | [] => []
  | c :: l' => if p c then dropwhile p l' else l
  end.

Definition strip_by (p : ascii → bool) (l : list ascii) : list ascii :=
  rev (dropwhile p (rev (dropwhile p l))).

(** [s.strip()] *)
Definition strip (s : string) : string := str (strip_by isspace (chars s)).

(** [s.split()]: the maximal runs of non-blank characters.  [cur] holds
    the run being read, last character first. *)
Fixpoint split_go (cur : list ascii) (l : list ascii) : list string :=
  match l with
  | [] => match cur with [] => [] | _ => [str (rev cur)] end
  | c :: l' =>
      if isspace c
      then match cur with
           | [] => split_go [] l'
           | _ => str (rev cur) :: split_go [] l'
           end
      else split_go (c :: cur) l'
  end.

Definition split (s : string) : list string := split_go [] (chars s).

(** [s.lower()] *)
Definition lower_char (c : ascii) : ascii :=
  let n := nat_of_ascii c in
  if ((65 <=? n) && (n <=? 90))%nat then ascii_of_nat (n + 32) else c.

Definition lower (s : string) : string := str (map lower_char (chars s)).

(** [s.startswith(prefix)] and [s[n:]] *)
Definition startswith (s prefix : string) : bool := String.prefix prefix s.
Definition slice_from (n : nat) (s : string) : string :=
  String.substring n (String.length s - n) s.

(** *** [int(s)]

    Blanks around the number are dropped, one sign is allowed, then
    decimal digits follow, with single underscores allowed between two
    digits.  CPython refuses, with the same [ValueError], a literal of
    more than [sys.get_int_max_str_digits()] digits (4300 unless
    reconfigured). *)

Definition INT_MAX_STR_DIGITS : nat := 4300.

Definition digit_val (c : ascii) : option Z :=
  let n := nat_of_ascii c in
  if ((48 <=? n) && (n <=? 57))%nat then Some (Z.of_nat n - 48) else None.

Definition is_underscore (c : ascii) : bool := (nat_of_ascii c =? 95)%nat.

(** [prev_us]: the previous character was an underscore; [acc]: the value
    read so far; [nd]: the digits read so far. *)
Fixpoint scan_digits (prev_us : bool) (acc : Z) (nd : nat) (l : list ascii)
  : option (Z * nat) :=
  match l with
  | [] => if prev_us then None else Some (acc, nd)
  | c :: l' =>
      if is_underscore c
      then if prev_us then None else scan_digits true acc nd l'
      else match digit_val c with
           | Some d => scan_digits false (10 * acc + d) (S nd) l'
           | None => None
           end
  end.

Definition split_sign (l : list ascii) : Z * list ascii :=
  match l with
  | c :: l' =>
      if (nat_of_ascii c =? 43)%nat then (1, l')
      else if (nat_of_ascii c =? 45)%nat then (-1, l')
      else (1, l)
  | [] => (1, [])
  end.

Definition int (s : string) : result Z :=
  let '(sign, body) := split_sign (strip_by int_isspace (chars s)) in
  match body with
  | [] => Raise ValueError
  | c :: _ =>
      if is_underscore c then Raise ValueError
      else match scan_digits false 0 0%nat body with
           | Some (v, nd) =>
               if (INT_MAX_STR_DIGITS <? nd)%nat then Raise ValueError
               else Ok (sign * v)
           | None => Raise ValueError
           end
  end.

(** [l[i]] on a list *)
Definition getitem {A} (l : list A) (i : nat) : result A :=
  match l !! i with
  | Some a => Ok a
  | None => Raise IndexError
  end.

(** [d[k]] on a plain dict *)
Definition dict_getitem `{Countable K} {V} (d : gmap K V) (k : K) : result V :=
  match d !! k with
  | Some v => Ok v
  | None => Raise KeyError
  end.

(** [d[k] += 1] on a [defaultdict(int)] *)
Definition incr `{Countable K} (k : K) (d : gmap K nat) : gmap K nat :=
  <[k := S (default 0%nat (d !! k))]> d.

(** [sum(d.values())] *)
Definition total `{Countable K} (d : gmap K nat) : nat :=
  map_fold (λ _ v acc, (v + acc)%nat) 0%nat d.

(** A path argument is used only when it is truthy: neither [None] nor
    the empty string. *)
Definition truthy (p : option string) : bool :=
  match p with
  | Some s => negb (String.eqb s "")
  | None => false
  end.

End Py.

#[global] Arguments Py.int : simpl never.
#[global] Arguments Py.split : simpl never.
#[global] Arguments Py.strip : simpl never.
#[global] Arguments Py.lower : simpl never.

(** A [for] loop whose body may raise: the state reached before the
    raising iteration is kept, together with the exception that left the
    loop.  (No body below mutates anything before it raises.) *)
Fixpoint for_in {S A} (body : S → A → result S) (s : S) (l : list A)
  : S * option exn :=
  match l with
  | [] => (s, None)
  | a :: l' =>
      match body s a with
      | Ok s' => for_in body s' l'
      | Raise e => (s, Some e)
      end
  end.

(** ** The outside world

    [csv_files] gives, for every path that can be opened, the rows
    [csv.reader] yields for it; [text_files] the lines of every readable
    text file, line terminators included; [socket_vars] the integer
    attributes of the [socket] module, in [vars(socket).items()] order;
    [written] the reports written so far.  A report is kept as the two
    dictionaries it serialises: the layout of the text is fixed by the
    two headers and the iteration order of the dictionaries. *)

Record report : Type := {
  report_tag_count : gmap string nat;
  report_combinations_count : gmap (Z * string) nat;
}.

Record world : Type := {
  csv_files : gmap string (list (list string));
  text_files : gmap string (list string);
  socket_vars : list (string * Z);
  written : gmap string report;
}.

Definition write_report (path : string) (r : report) (w : world) : world :=
  {| csv_files := csv_files w;
     text_files := text_files w;
     socket_vars := socket_vars w;
     written := <[path := r]> (written w) |}.

(** The world where [path] is a readable, empty table. *)
Definition with_empty_csv (path : string) (w : world) : world :=
  {| csv_files := <[path := []]> (csv_files w);
     text_files := text_files w;
     socket_vars := socket_vars w;
     written := written w |}.

(** ** Helper functions *)

(** An [IOError] on opening the file is swallowed: the buffer is returned
    as it is, empty. *)
Definition read_csv_file (w : world) (fname : string) : list (list string) :=
  match csv_files w !! fname with
  | Some rows => rows
  | None => []
  end.

Module TagMappings.

Definition row (buff : list (Z * string * string)) (line : list string)
  : result (list (Z * string * string)) :=
  c ← Py.getitem line TAGMAP_PORT_IDX;
  if String.eqb c "dstport" then Ok buff
  else
    c0 ← Py.getitem line TAGMAP_PORT_IDX;
    port ← Py.int c0;
    proto ← Py.getitem line TAGMAP_PROTO_IDX;
    tag ← Py.getitem line TAGMAP_TAG_IDX;
    Ok (buff ++ [(port, proto, tag)])%list.

Definition process (w : world) (fname : string)
  : result (list (Z * string * string)) :=
  match for_in row [] (read_csv_file w fname) with
  | (buff, None) => Ok buff
  | (_, Some IndexError) | (_, Some ValueError) => Raise TagMappingsException
  | (_, Some e) => Raise e
  end.

End TagMappings.

Module ProtoMappings.

Definition row (buff : list (Z * string)) (line : list string)
  : result (list (Z * string)) :=
  c0 ← Py.getitem line IPMF_PORT_IDX;
  num ← Py.int c0;
  c1 ← Py.getitem line IPMF_PROTO_IDX;
  Ok (buff ++ [(num, Py.lower c1)])%list.

(** The [try] encloses the whole loop: a [ValueError] ends the loop and
    the rows read so far are returned. *)
Definition process (w : world) (fname : string) : result (list (Z * string)) :=
  match for_in row [] (read_csv_file w fname) with
  | (buff, None) => Ok buff
  | (buff, Some ValueError) => Ok buff
  | (_, Some IndexError) => Raise ProtoMappingsException
  | (_, Some e) => Raise e
  end.

End ProtoMappings.

(** ** The parser object *)

Record parser : Type := {
  version : Z;
  flowlogs : option string;
  mapfile : option string;
  outputfile : option string;
  proto_map_file : option string;
  tag_map : gmap (Z * string) string;
  table : gmap Z string;
  tag_count : gmap string nat;
  combinations_count : gmap (Z * string) nat;
  errors : nat;
}.

(** [DefaultFlowLogsParser.__init__] *)
Definition init (version : Z) (logs mappings output proto_map_file : option string)
  : parser :=
  {| version := version;
     flowlogs := logs;
     mapfile := mappings;
     outputfile := output;
     proto_map_file := proto_map_file;
     tag_map := ∅;
     table := ∅;
     tag_count := ∅;
     combinations_count := ∅;
     errors := 0 |}.

Definition set_tag_map (m : gmap (Z * string) string) (self : parser) : parser :=
  {| version := version self; flowlogs := flowlogs self;
     mapfile := mapfile self; outputfile := outputfile self;
     proto_map_file := proto_map_file self;
     tag_map := m; table := table self;
     tag_count := tag_count self;
     combinations_count := combinations_count self;
     errors := errors self |}.

Definition set_table (t : gmap Z string) (self : parser) : parser :=
  {| version := version self; flowlogs := flowlogs self;
     mapfile := mapfile self; outputfile := outputfile self;
     proto_map_file := proto_map_file self;
     tag_map := tag_map self; table := t;
     tag_count := tag_count self;
     combinations_count := combinations_count self;
     errors := errors self |}.

Definition set_tag_count (c : gmap string nat) (self : parser) : parser :=
  {| version := version self; flowlogs := flowlogs self;
     mapfile := mapfile self; outputfile := outputfile self;
     proto_map_file := proto_map_file self;
     tag_map := tag_map self; table := table self;
     tag_count := c;
     combinations_count := combinations_count self;
     errors := errors self |}.

Definition set_combinations_count (c : gmap (Z * string) nat) (self : parser)
  : parser :=
  {| version := version self; flowlogs := flowlogs self;
     mapfile := mapfile self; outputfile := outputfile self;
     proto_map_file := proto_map_file self;
     tag_map := tag_map self; table := table self;
     tag_count := tag_count self;
     combinations_count := c;
     errors := errors self |}.

Definition set_errors (n : nat) (self : parser) : parser :=
  {| version := version self; flowlogs := flowlogs self;
     mapfile := mapfile self; outputfile := outputfile self;
     proto_map_file := proto_map_file self;
     tag_map := tag_map self; table := table self;
     tag_count := tag_count self;
     combinations_count := combinations_count self;
     errors := n |}.

(** *** Loading the two tables *)

Definition read_mappings_file (w : world) (self : parser) : parser * option exn :=
  if negb (Py.truthy (mapfile self)) then (self, None)
  else
    match TagMappings.process w (default "" (mapfile self)) with
    | Raise TagMappingsException => (self, Some FlowLogParserException)
    | Raise e => (self, Some e)
    | Ok buff =>
        (set_tag_map
           (foldl (λ m entry, <[(entry.1.1, entry.1.2) := entry.2]> m)
                  (tag_map self) buff) self,
         None)
    end.

Definition IPPROTO_prefix : string := "IPPROTO_".

Definition builtin_table (w : world) : gmap Z string :=
  foldl (λ t item,
           if Py.startswith item.1 IPPROTO_prefix
           then <[item.2 := Py.slice_from (String.length IPPROTO_prefix) item.1]> t
           else t)
        ∅ (socket_vars w).

Definition read_proto_mappings (w : world) (self : parser) : parser * option exn :=
  if Py.truthy (proto_map_file self) then
    match ProtoMappings.process w (default "" (proto_map_file self)) with
    | Raise ProtoMappingsException => (self, Some FlowLogParserException)
    | Raise e => (self, Some e)
    | Ok buff =>
        (set_table (foldl (λ t entry, <[entry.1 := entry.2]> t) (table self) buff)
           self,
         None)
    end
  else (set_table (builtin_table w) self, None).

(** *** The per-batch analysis *)

Definition Untagged : string := "Untagged".

(** Lines 297-302: the paired update of the two counters for one key. *)
Definition record (key : Z * string) (self : parser) : parser :=
  let self1 :=
    match tag_map self !! key with
    | Some tag => set_tag_count (Py.incr tag (tag_count self)) self
    | None => set_tag_count (Py.incr Untagged (tag_count self)) self
    end in
  set_combinations_count (Py.incr key (combinations_count self1)) self1.

(** Lines 265-295 of the [try] block, for a line already split into
    fields: the key of the record, or the exception raised on the way. *)
Definition record_key (self : parser) (fields : list string)
  : result (Z * string) :=
  dstport ← Py.getitem fields V2_DST_PORT_IDX;
  proto_field ← Py.getitem fields V2_PROTO_NUM_IDX;
  proto_num ← Py.int proto_field;
  protocol_name ← Py.dict_getitem (table self) proto_num;
  port ← Py.int dstport;
  Ok (port, Py.lower protocol_name).

(** The whole [try] block.  Nothing is written before the last possible
    exception. *)
Definition count_record (self : parser) (fields : list string) : result parser :=
  key ← record_key self fields;
  Ok (record key self).

(** One iteration of the loop over [lines].  [ValueError] and [IndexError]
    are caught and counted; any other exception leaves the loop. *)
Definition analyze_line (self : parser) (line : string) : result parser :=
  let fields := Py.split (Py.strip line) in
  if (length fields <? V2_FIELDS_COUNT)%nat
  then Ok (set_errors (errors self + 1) self)
  else
    match count_record self fields with
    | Ok self' => Ok self'
    | Raise ValueError | Raise IndexError => Ok (set_errors (errors self + 1) self)
    | Raise e => Raise e
    end.

(** [DefaultFlowLogsParser._analyze_flow_logs], called by one thread: the
    lock is taken on entry and released on the way out, normal or not. *)
Definition _analyze_flow_logs (self : parser) (lines : list string)
  : parser * option exn :=
  for_in analyze_line self lines.

(** *** The driver *)

(** [list(islice(handle, CHUNK_SIZE))] until it comes back empty. *)
Fixpoint chunks_fuel (fuel : nat) (lines : list string) : list (list string) :=
  match fuel with
  | O => []
  | S fuel' =>
      match lines with
      | [] => []
      | _ => take CHUNK_SIZE lines :: chunks_fuel fuel' (drop CHUNK_SIZE lines)
      end
  end.

Definition chunks (lines : list string) : list (list string) :=
  chunks_fuel (length lines) lines.

Definition _write_output_file (self : parser) (w : world) : world :=
  if negb (Py.truthy (outputfile self)) then w
  else
    write_report (default "" (outputfile self))
      {| report_tag_count := tag_count self;
         report_combinations_count := combinations_count self |} w.

(** The executor has one worker: the submitted batches run one after the
    other, in submission order.  An exception raised by a batch stays in
    its future, which nobody reads; leaving the [with] block waits for all
    batches. *)
Definition submit_all (self : parser) (batches : list (list string)) : parser :=
  foldl (λ s lines, (_analyze_flow_logs s lines).1) self batches.

Definition analyze_flow_logs (w : world) (self : parser)
  : parser * world * option exn :=
  if negb (Py.truthy (flowlogs self)) then (self, w, None)
  else
    match text_files w !! default "" (flowlogs self) with
    | None => (self, w, Some IOError)
    | Some lines =>
        let self' := submit_all self (chunks lines) in
        (self', _write_output_file self' w, None)
    end.

(** [main], with the constructor arguments as parameters: the three
    stages inside the [try], then the handler.  A [FlowLogParserException]
    is caught and printed; anything else escapes. *)
Definition main_stages (w : world) (fl : parser) : parser * world * option exn :=
  match read_mappings_file w fl with
  | (fl, Some e) => (fl, w, Some e)
  | (fl, None) =>
      match read_proto_mappings w fl with
      | (fl, Some e) => (fl, w, Some e)
      | (fl, None) => analyze_flow_logs w fl
      end
  end.

Definition main (w : world) (version : Z)
    (logs mappings output proto_map_file : option string)
  : parser * world * option exn :=
  match main_stages w (init version logs mappings output proto_map_file) with
  | (fl, w', Some FlowLogParserException) => (fl, w', None)
  | r => r
  end.

(** ** Vocabulary of the statements *)

(** The fields of a line, and the field at a position ([""] when the line
    is too short, where the code never looks). *)
Definition fields_of (line : string) : list string := Py.split (Py.strip line).

Definition field (line : string) (i : nat) : string :=
  default "" (fields_of line !! i).

Definition enough_fields (line : string) : bool :=
  (V2_FIELDS_COUNT <=? length (fields_of line))%nat.

#[global] Arguments fields_of : simpl never.
#[global] Arguments field : simpl never.
#[global] Arguments enough_fields : simpl never.

(** A field is numeric when [int] accepts it. *)
Definition is_numeric (s : string) : bool :=
  match Py.int s with
  | Ok _ => true
  | Raise _ => false
  end.

(** Validation as the specification words it: enough fields, and a numeric
    port and protocol. *)
Definition spec_passes_validation (line : string) : bool :=
  enough_fields line
  && is_numeric (field line V2_DST_PORT_IDX)
  && is_numeric (field line V2_PROTO_NUM_IDX).

(** The line reaches the table with a protocol number the table lacks. *)
Definition lookup_fails (t : gmap Z string) (line : string) : bool :=
  enough_fields line
  && match Py.int (field line V2_PROTO_NUM_IDX) with
     | Ok n => bool_decide (t !! n = None)
     | Raise _ => false
     end.

(** The number of lines of a batch with a property. *)
Definition count_lines (p : string → bool) (lines : list string) : nat :=
  length (List.filter p lines).

(** The tag a key resolves to. *)
Definition resolve_tag (m : gmap (Z * string) string) (key : Z * string) : string :=
  default Untagged (m !! key).

(** The key a line is counted under: the key the [try] block computes
    when the line has enough fields, and none when the line is short or the
    computation raises. *)
Definition line_key (self : parser) (line : string) : option (Z * string) :=
  if enough_fields line then
    match record_key self (fields_of line) with
    | Ok key => Some key
    | Raise _ => None
    end
  else None.

(** What an iteration that does not raise does to the parser, with the
    key computed from the tables of [self0]. *)
Definition line_effect (self0 : parser) (line : string) (self : parser) : parser :=
  match line_key self0 line with
  | Some key => record key self
  | None => set_errors (errors self + 1) self
  end.

(** A line with enough fields whose port and protocol fields read [port]
    and [num]. *)
Definition is_record (line : string) (port num : Z) : Prop :=
  enough_fields line = true
  ∧ Py.int (field line V2_DST_PORT_IDX) = Ok port
  ∧ Py.int (field line V2_PROTO_NUM_IDX) = Ok num.

(** No tag mapping is loaded and no tag but ["Untagged"] is counted. *)
Definition only_untagged (self : parser) : Prop :=
  tag_map self = ∅ ∧ ∀ tag, tag ≠ Untagged → tag_count self !! tag = None.

(** Two parser objects that differ at most in their two tables. *)
Definition same_run_state (s1 s2 : parser) : Prop :=
  flowlogs s1 = flowlogs s2 ∧ outputfile s1 = outputfile s2
  ∧ proto_map_file s1 = proto_map_file s2
  ∧ tag_count s1 = tag_count s2
  ∧ combinations_count s1 = combinations_count s2
  ∧ errors s1 = errors s2.

(** ** Sample data

    The lines and the parser of the repository's unit test, and three
    lines more: one with a protocol number the table lacks, one with a
    signed port, one with a non-numeric protocol field. *)

Definition line_49153 : string :=
  "2 123456789012 eni-0a1b2c3d 10.0.1.201 198.51.100.2 443 49153 6 25 20000 1620140761 1620140821 ACCEPT OK".
Definition line_49154 : string :=
  "2 123456789012 eni-4d3c2b1a 192.168.1.100 203.0.113.101 23 49154 6 15 12000 1620140761 1620140821 REJECT OK".
Definition line_49155 : string :=
  "2 123456789012 eni-5e6f7g8h 192.168.1.101 198.51.100.3 25 49155 6 10 8000 1620140761 1620140821 ACCEPT OK".
Definition line_udp : string :=
  "2 123456789012 eni-0a1b2c3d 10.0.1.201 198.51.100.2 443 53 17 25 20000 1620140761 1620140821 ACCEPT OK".
Definition line_signed_port : string :=
  "2 123456789012 eni-0a1b2c3d 10.0.1.201 198.51.100.2 443 -1 6 25 20000 1620140761 1620140821 ACCEPT OK".
Definition line_bad_proto : string :=
  "2 123456789012 eni-0a1b2c3d 10.0.1.201 198.51.100.2 443 53 tcp 25 20000 1620140761 1620140821 ACCEPT OK".

(** [test_positve_case]: the parser after the three assignments. *)
Definition flp : parser :=
  set_tag_map (<[(49154, "tcp") := "sv_P1"]> (<[(49153, "tcp") := "sv_P1"]> ∅))
    (set_table (<[6 := "tcp"]> ∅)
       (init 2 (Some "dummy") (Some "dummy") (Some "dummy") None)).

Definition test_lines : list string :=
  [line_49153; line_49154; ""; line_49155].

(** A world where ["dummy"] is the test's flow log, and nothing else
    exists. *)
Definition test_world : world :=
  {| csv_files := ∅;
     text_files := {[ "dummy" := test_lines ]};
     socket_vars := [("AF_INET", 2); ("IPPROTO_TCP", 6); ("IPPROTO_UDP", 17)];
     written := ∅ |}.

(** The same world with a flow log of one line, whose protocol number
    the test's table lacks. *)
Definition udp_world : world :=
  {| csv_files := ∅;
     text_files := {[ "dummy" := [line_udp] ]};
     socket_vars := [];
     written := ∅ |}.

(** A protocol table in the IANA layout, with the unassigned range in the
    middle. *)
Definition iana_rows : list (list string) :=
  [ ["6"; "TCP"]; ["17"; "UDP"]; ["146-252"; "Unassigned"]; ["253"; "EXP1"];
    ["254"; "EXP2"] ].

Definition iana_world : world :=
  {| csv_files := {[ "protocol-numbers.csv" := iana_rows ]};
     text_files := ∅;
     socket_vars := [];
     written := ∅ |}.

(** ** Concurrent callers

    Several threads call [_analyze_flow_logs] on the same parser object.
    A thread is described by where it stands in the method, the lines of
    its current call it has not finished, and the batches of the calls it
    has still to make.  One step of a thread is one access to the shared
    object: taking or releasing [counts_lock], or one read or one write
    of an attribute.  Every [+= 1] is a read followed by a write, so that
    two threads inside the loop at once could lose an update; what keeps
    them apart is the lock, which the model represents by its owner. *)

Inductive pc : Type :=
  | Outside
      (* not inside the method: before [with self.counts_lock], or done *)
  | AtLoop
      (* lock held, at the head of [for line in lines] *)
  | TagRead (key : Z * string) (tag : string) (v : nat)
      (* line 298/300: [self.tag_count[tag]] read as [v], not yet written *)
  | TagWritten (key : Z * string)
      (* between the two updates *)
  | CombRead (key : Z * string) (v : nat)
      (* line 302: [self.combinations_count[key]] read as [v] *)
  | ErrRead (v : nat).
      (* line 261/304: [self.errors] read as [v] *)

Record thread : Type := {
  at_pc : pc;
  lines_left : list string;
  calls_left : list (list string);
}.

Record config : Type := {
  obj : parser;
  lock_owner : option nat;
  pool : list thread;
}.

Definition set_thread (i : nat) (th : thread) (o : parser)
    (owner : option nat) (c : config) : config :=
  {| obj := o; lock_owner := owner; pool := <[i := th]> (pool c) |}.

(** Lines 259-300, up to the first read of a counter: the line is either
    rejected, and [self.errors] is read, or it has a key, and the counter
    of its tag is read; or an exception nobody catches is on its way. *)
Definition loop_head (self : parser) (line : string) : result pc :=
  let fields := Py.split (Py.strip line) in
  if (length fields <? V2_FIELDS_COUNT)%nat
  then Ok (ErrRead (errors self))
  else
    match record_key self fields with
    | Ok key =>
        match tag_map self !! key with
        | Some tag => Ok (TagRead key tag (default 0%nat (tag_count self !! tag)))
        | None =>
            Ok (TagRead key Untagged (default 0%nat (tag_count self !! Untagged)))
        end
    | Raise ValueError | Raise IndexError => Ok (ErrRead (errors self))
    | Raise e => Raise e
    end.

(** One step of thread [i].  A thread that cannot move (it is done, or it
    waits for the lock) leaves the configuration as it is. *)
Definition thread_step (i : nat) (c : config) : config :=
  match pool c !! i with
  | None => c
  | Some th =>
      let self := obj c in
      let at_ p lines :=
        {| at_pc := p; lines_left := lines; calls_left := calls_left th |} in
      match at_pc th with
      | Outside =>
          match calls_left th, lock_owner c with
          | lines :: calls, None =>
              set_thread i
                {| at_pc := AtLoop; lines_left := lines; calls_left := calls |}
                self (Some i) c
          | _, _ => c
          end
      | AtLoop =>
          match lines_left th with
          | [] => set_thread i (at_ Outside []) self None c
          | line :: _ =>
              match loop_head self line with
              | Ok p => set_thread i (at_ p (lines_left th)) self (lock_owner c) c
              | Raise _ =>
                  (* the exception leaves the [with] block and the call *)
                  set_thread i (at_ Outside []) self None c
              end
          end
      | TagRead key tag v =>
          set_thread i (at_ (TagWritten key) (lines_left th))
            (set_tag_count (<[tag := S v]> (tag_count self)) self)
            (lock_owner c) c
      | TagWritten key =>
          set_thread i
            (at_ (CombRead key (default 0%nat (combinations_count self !! key)))
               (lines_left th))
            self (lock_owner c) c
      | CombRead key v =>
          set_thread i (at_ AtLoop (tail (lines_left th)))
            (set_combinations_count
               (<[key := S v]> (combinations_count self)) self)
            (lock_owner c) c
      | ErrRead v =>
          set_thread i (at_ AtLoop (tail (lines_left th)))
            (set_errors (v + 1) self) (lock_owner c) c
      end
  end.

(** A schedule names the thread that moves at each step. *)
Definition run (sched : list nat) (c : config) : config :=
  foldl (λ c i, thread_step i c) c sched.

(** Every caller starts outside, with its batches to submit. *)
Definition start (self : parser) (work : list (list (list string))) : config :=
  {| obj := self;
     lock_owner := None;
     pool := map (λ calls, {| at_pc := Outside; lines_left := [];
                              calls_left := calls |}) work |}.

Definition thread_done (th : thread) : bool :=
  match at_pc th, calls_left th with
  | Outside, [] => true
  | _, _ => false
  end.

Definition finished (c : config) : bool := forallb thread_done (pool c).

(** The lines a thread has not finished, over all its calls. *)
Definition todo (th : thread) : list string :=
  (lines_left th ++ concat (calls_left th))%list.

(** Whether a line is a record with key [k], and whether it is a record
    at all. *)
Definition has_key (self0 : parser) (k : Z * string) (line : string) : bool :=
  bool_decide (line_key self0 line = Some k).

Definition has_some_key (self0 : parser) (line : string) : bool :=
  match line_key self0 line with
  | Some _ => true
  | None => false
  end.

(** What a thread inside the method knows, against the shared object [o]:
    the values it has read are still the values of the object, and the
    line it works on is the head of [lines_left]. *)
Definition head_key (self0 : parser) (th : thread) (k : option (Z * string))
  : Prop :=
  ∃ line rest, lines_left th = line :: rest ∧ line_key self0 line = k.

Definition pc_ok (self0 o : parser) (th : thread) : Prop :=
  match at_pc th with
  | Outside => lines_left th = []
  | AtLoop => True
  | TagRead key tag v =>
      tag = resolve_tag (tag_map self0) key
      ∧ v = default 0%nat (tag_count o !! tag)
      ∧ head_key self0 th (Some key)
  | TagWritten key => head_key self0 th (Some key)
  | CombRead key v =>
      v = default 0%nat (combinations_count o !! key)
      ∧ head_key self0 th (Some key)
  | ErrRead v => v = errors o ∧ head_key self0 th None
  end.

(** A thread between the two updates of a record. *)
Definition half_done (th : thread) : nat :=
  match at_pc th with
  | TagWritten _ | CombRead _ _ => 1
  | _ => 0
  end.

(** The invariant of the lock: the tables are those of the start, a
    thread is inside the method exactly when it owns the lock, what the
    threads know is up to date, and no line left will miss the table. *)
Record lock_inv (self0 : parser) (c : config) : Prop := {
  inv_table : table (obj c) = table self0;
  inv_tag_map : tag_map (obj c) = tag_map self0;
  inv_inside : ∀ i th,
    pool c !! i = Some th → at_pc th ≠ Outside → lock_owner c = Some i;
  inv_owner : ∀ i,
    lock_owner c = Some i → ∃ th, pool c !! i = Some th ∧ at_pc th ≠ Outside;
  inv_pc : ∀ i th, pool c !! i = Some th → pc_ok self0 (obj c) th;
  inv_known : ∀ i th line,
    pool c !! i = Some th → line ∈ todo th →
    lookup_fails (table self0) line = false;
}.

(** The moves of a thread [th] of a configuration that satisfies the
    invariant: the new thread, the new object and the new owner of the
    lock. *)
Inductive move (self0 : parser) (c : config) (i : nat) (th : thread)
  : thread → parser → option nat → Prop :=
  | move_acquire lines calls :
      at_pc th = Outside → lines_left th = [] →
      calls_left th = lines :: calls → lock_owner c = None →
      move self0 c i th
        {| at_pc := AtLoop; lines_left := lines; calls_left := calls |}
        (obj c) (Some i)
  | move_release :
      at_pc th = AtLoop → lines_left th = [] →
      move self0 c i th
        {| at_pc := Outside; lines_left := []; calls_left := calls_left th |}
        (obj c) None
  | move_accept line rest key :
      at_pc th = AtLoop → lines_left th = line :: rest →
      line_key self0 line = Some key →
      move self0 c i th
        {| at_pc := TagRead key (resolve_tag (tag_map self0) key)
                      (default 0%nat
                         (tag_count (obj c)
                            !! resolve_tag (tag_map self0) key));
           lines_left := line :: rest; calls_left := calls_left th |}
        (obj c) (Some i)
  | move_reject line rest :
      at_pc th = AtLoop → lines_left th = line :: rest →
      line_key self0 line = None →
      move self0 c i th
        {| at_pc := ErrRead (errors (obj c));
           lines_left := line :: rest; calls_left := calls_left th |}
        (obj c) (Some i)
  | move_write_tag line rest key tag v :
      at_pc th = TagRead key tag v → lines_left th = line :: rest →
      line_key self0 line = Some key →
      move self0 c i th
        {| at_pc := TagWritten key;
           lines_left := line :: rest; calls_left := calls_left th |}
        (set_tag_count (Py.incr tag (tag_count (obj c))) (obj c)) (Some i)
  | move_read_comb line rest key :
      at_pc th = TagWritten key → lines_left th = line :: rest →
      line_key self0 line = Some key →
      move self0 c i th
        {| at_pc := CombRead key
                      (default 0%nat (combinations_count (obj c) !! key));
           lines_left := line :: rest; calls_left := calls_left th |}
        (obj c) (Some i)
  | move_write_comb line rest key v :
      at_pc th = CombRead key v → lines_left th = line :: rest →
      line_key self0 line = Some key →
      move self0 c i th
        {| at_pc := AtLoop; lines_left := rest; calls_left := calls_left th |}
        (set_combinations_count
           (Py.incr key (combinations_count (obj c))) (obj c))
        (Some i)
  | move_write_err line rest v :
      at_pc th = ErrRead v → lines_left th = line :: rest →
      line_key self0 line = None →
      move self0 c i th
        {| at_pc := AtLoop; lines_left := rest; calls_left := calls_left th |}
        (set_errors (errors (obj c) + 1) (obj c)) (Some i).

(** The records not yet counted in [combinations_count], with key [k] and
    in all; what is counted plus what is left does not change. *)
Definition pending (p : string → bool) (c : config) : nat :=
  sum_list_with (λ th, count_lines p (todo th)) (pool c).

Definition credit (self0 : parser) (k : Z * string) (c : config) : nat :=
  (default 0 (combinations_count (obj c) !! k) + pending (has_key self0 k) c)%nat.

Definition credit_total (self0 : parser) (c : config) : nat :=
  (Py.total (combinations_count (obj c)) + pending (has_some_key self0) c)%nat.

(** The two counters add up to the same number, but for the records a
    thread holds between their two updates. *)
Definition paired (c : config) : Prop :=
  Py.total (tag_count (obj c))
  = (Py.total (combinations_count (obj c)) + sum_list_with half_done (pool c))%nat.

(** The steps a thread still has to take. *)
Definition pc_weight (p : pc) : nat :=
  match p with
  | Outside => 0
  | AtLoop => 4
  | TagRead _ _ _ => 3
  | TagWritten _ => 2
  | CombRead _ _ => 1
  | ErrRead _ => 1
  end.

Definition thread_weight (th : thread) : nat :=
  (pc_weight (at_pc th) + 5 * length (lines_left th)
   + sum_list_with (λ lines, 5 + 5 * length lines) (calls_left th))%nat.

Definition weight (c : config) : nat := sum_list_with thread_weight (pool c).

(** A caller whose batches hold [M] lines in all, every one a record with
    key [k]. *)
Definition caller_of (self0 : parser) (M : nat) (k : Z * string)
    (calls : list (list string)) : Prop :=
  length (concat calls) = M
  ∧ ∀ line, line ∈ concat calls → line_key self0 line = Some k.

(** Two callers of the unit test's parser with two records each, the
    first in two calls, the second in one; and a schedule that lets the
    second caller move twice as often as the first, and now and then
    names a thread that does not exist. *)
Definition two_keys : list (Z * string) := [(49153, "tcp"); (49155, "tcp")].

Definition sample_schedule : list nat :=
  concat (replicate 20 [0; 1; 1; 7])%nat.

Definition two_callers : list (list (list string)) :=
  [ [[line_49153]; [line_49153]]; [[line_49155; line_49155]] ].

(** A configuration no run reaches: two threads inside the locked block
    at once, each with the same record to count. *)
Definition two_inside : config :=
  {| obj := flp;
     lock_owner := Some 0%nat;
     pool := replicate 2 {| at_pc := AtLoop; lines_left := [line_49153];
                            calls_left := [] |} |}.

(** ** The other parser class, and the driver over the abstract method *)

(** [CustomFlowLogsParser._analyze_flow_logs] is [pass]. *)
Module CustomFlowLogsParser.

Definition _analyze_flow_logs (self : parser) (lines : list string)
  : parser * option exn :=
  (self, None).

End CustomFlowLogsParser.

(** [GenericFlowLogParser.analyze_flow_logs], with the abstract method as
    a parameter; [analyze_flow_logs] above is its instance at the default
    class. *)
Module GenericFlowLogParser.

Definition submit_all (method : parser → list string → parser * option exn)
    (self : parser) (batches : list (list string)) : parser :=
  foldl (λ s lines, (method s lines).1) self batches.

Definition analyze_flow_logs
    (method : parser → list string → parser * option exn)
    (w : world) (self : parser) : parser * world * option exn :=
  if negb (Py.truthy (flowlogs self)) then (self, w, None)
  else
    match text_files w !! default "" (flowlogs self) with
    | None => (self, w, Some IOError)
    | Some lines =>
        let self' := submit_all method self (chunks lines) in
        (self', _write_output_file self' w, None)
    end.

End GenericFlowLogParser.

(** ** More vocabulary *)

(** The lines of a batch that the loop reaches: those before the first
    line whose lookup fails. *)
Fixpoint before_failure (t : gmap Z string) (lines : list string) : list string :=
  match lines with
  | [] => []
  | line :: lines' =>
      if lookup_fails t line then [] else line :: before_failure t lines'
  end.

(** The tag a line is counted under, if it is counted. *)
Definition line_tag (self0 : parser) (line : string) : option string :=
  resolve_tag (tag_map self0) <$> line_key self0 line.

Definition has_tag (self0 : parser) (tag : string) (line : string) : bool :=
  bool_decide (line_tag self0 line = Some tag).

(** A row of the tag table: its header, or the entry it holds when it has
    three columns and a numeric port. *)
Definition is_header (row : list string) : bool :=
  match row with
  | c :: _ => String.eqb c "dstport"
  | [] => false
  end.

Definition tag_entry (row : list string) : option (Z * string * string) :=
  match row with
  | c0 :: c1 :: c2 :: _ =>
      match Py.int c0 with
      | Ok port => Some (port, c1, c2)
      | Raise _ => None
      end
  | _ => None
  end.

(** The entries of the rows that are not headers, when every such row
    holds one. *)
Fixpoint tag_entries (rows : list (list string))
  : option (list (Z * string * string)) :=
  match rows with
  | [] => Some []
  | row :: rows' =>
      if is_header row then tag_entries rows'
      else
        match tag_entry row, tag_entries rows' with
        | Some e, Some es => Some (e :: es)
        | _, _ => None
        end
  end.

(** A row of the protocol table: the entry it holds when it has two
    columns and a numeric first column. *)
Definition proto_entry (row : list string) : option (Z * string) :=
  match row with
  | c0 :: c1 :: _ =>
      match Py.int c0 with
      | Ok num => Some (num, Py.lower c1)
      | Raise _ => None
      end
  | _ => None
  end.

(** The last value a list of entries gives to a key. *)
Definition last_value {K V} `{EqDecision K} (k : K) (entries : list (K * V))
  : option V :=
  snd <$> last (filter (λ e, e.1 = k) entries).

(** The counters of [s'] are those of [s], grown: no key is gone and no
    count is smaller. *)
Definition grown (s s' : parser) : Prop :=
  (∀ k v, combinations_count s !! k = Some v →
          ∃ v', combinations_count s' !! k = Some v' ∧ (v ≤ v')%nat)
  ∧ (∀ tag v, tag_count s !! tag = Some v →
              ∃ v', tag_count s' !! tag = Some v' ∧ (v ≤ v')%nat)
  ∧ (errors s ≤ errors s')%nat.

(** Two parser objects with the same configuration and tables. *)
Definition same_tables (s s' : parser) : Prop :=
  version s' = version s ∧ flowlogs s' = flowlogs s ∧ mapfile s' = mapfile s
  ∧ outputfile s' = outputfile s ∧ proto_map_file s' = proto_map_file s
  ∧ tag_map s' = tag_map s ∧ table s' = table s.

(** The entries of the leading rows of the protocol table that hold
    one. *)
Fixpoint proto_entries (rows : list (list string)) : list (Z * string) :=
  match rows with
  | [] => []
  | row :: rows' =>
      match proto_entry row with
      | Some e => e :: proto_entries rows'
      | None => []
      end
  end.

(** A table whose names are all in lower case. *)
Definition lower_names (t : gmap Z string) : Prop :=
  ∀ num name, t !! num = Some name → Py.lower name = name.

(** A world with a tag table (header, a pair named twice, a row in upper
    case), a table with a short row, a protocol table and a flow log. *)
Definition tag_rows : list (list string) :=
  [ ["dstport"; "protocol"; "tag"]; ["25"; "tcp"; "sv_P1"];
    ["68"; "udp"; "sv_P2"]; ["25"; "tcp"; "email"]; ["443"; "TCP"; "secure"] ].

Definition mapping_world : world :=
  {| csv_files :=
       {[ "lookup.csv" := tag_rows;
          "short.csv" := [["25"; "tcp"]];
          "protocols.csv" := [["6"; "TCP"]; ["17"; "UDP"]];
          "one-column.csv" := [["6"]] ]};
     text_files := {[ "flow.log" := test_lines ]};
     socket_vars := [("AF_INET", 2); ("IPPROTO_TCP", 6); ("IPPROTO_UDP", 17)];
     written := ∅ |}.

(** ** Concurrent callers against the sequential run *)

(** The lines no thread has finished. *)
Definition all_todo (c : config) : list string :=
  concat (map todo (pool c)).

(** The first of the two updates of a record, alone. *)
Definition first_update (self0 : parser) (key : Z * string) (s : parser)
  : parser :=
  set_tag_count (Py.incr (resolve_tag (tag_map self0) key) (tag_count s)) s.

(** The key of the record a thread holds between its two updates. *)
Definition half_key (th : thread) : option (Z * string) :=
  match at_pc th with
  | TagWritten key | CombRead key _ => Some key
  | _ => None
  end.

Definition with_half (self0 : parser) (th : thread) (s : parser) : parser :=
  match half_key th with
  | Some key => first_update self0 key s
  | None => s
  end.

(** The shared object is what the lines in [finished_lines], taken one
    after the other, make of the parser of the start, but for the record
    some thread is in the middle of; and these lines, with the lines left,
    are the lines submitted. *)
Definition serial_inv (self0 : parser) (all : list string) (c : config) : Prop :=
  ∃ finished_lines,
    (finished_lines ++ all_todo c)%list ≡ₚ all
    ∧ obj c = foldr (with_half self0)
                (foldl (λ s line, line_effect self0 line s) self0 finished_lines)
                (pool c).

(** * Properties *)

(** ** The text primitives on examples *)

Example split_ex :
  Py.split (Py.strip "  2 eni-0a1b   443  ") = ["2"; "eni-0a1b"; "443"]
  ∧ Py.split (Py.strip "") = [].
Proof. split; reflexivity. Qed.

Example int_ex :
  Py.int "49153" = Ok 49153 ∧ Py.int "-1" = Ok (-1) ∧ Py.int "+07" = Ok 7
  ∧ Py.int "1_000" = Ok 1000 ∧ Py.int " 6 " = Ok 6
  ∧ Py.int "" = Raise ValueError ∧ Py.int "146-252" = Raise ValueError
  ∧ Py.int "1__0" = Raise ValueError ∧ Py.int "_1" = Raise ValueError
  ∧ Py.int "1_" = Raise ValueError ∧ Py.int "-" = Raise ValueError
  ∧ Py.int "abc" = Raise ValueError ∧ Py.int "6 7" = Raise ValueError.
Proof. repeat split; reflexivity. Qed.

Example lower_ex : Py.lower "TCP-v6_Az" = "tcp-v6_az".
Proof. reflexivity. Qed.

(** ** The unit tests *)

(** [test_negative_case]: three malformed lines are three errors and
    nothing counted. *)
Example test_negative_case :
  let flp0 := init 2 (Some "dummy") (Some "dummy") (Some "dummy") None in
  _analyze_flow_logs flp0 ["abc"; "def"; "ghi"] = (set_errors 3 flp0, None).
Proof. reflexivity. Qed.

(** [test_positve_case]: the four assertions of the test. *)
Example test_positive_case :
  let r := (_analyze_flow_logs flp test_lines).1 in
  (0 < errors r)%nat ∧ size (tag_count r) = 2%nat
  ∧ size (combinations_count r) = 3%nat
  ∧ default 0%nat (tag_count r !! "Untagged") = 1%nat.
Proof. vm_compute. repeat split; lia. Qed.

(** A protocol field that is not a number is one error. *)
Example bad_proto_ex :
  _analyze_flow_logs flp [line_bad_proto] = (set_errors 1 flp, None).
Proof. vm_compute. reflexivity. Qed.

(** ** Sums of the values of a dictionary *)

Section total.
Context `{Countable K}.
Implicit Types (d : gmap K nat) (k : K).

Lemma total_empty : Py.total (∅ : gmap K nat) = 0%nat.
Proof. reflexivity. Qed.

Lemma total_insert_fresh d k v :
  d !! k = None → Py.total (<[k := v]> d) = (v + Py.total d)%nat.
Proof.
  intros Hk. unfold Py.total.
  rewrite map_fold_insert_L; [done | intros; lia | done].
Qed.

Lemma total_delete d k v :
  d !! k = Some v → Py.total d = (v + Py.total (delete k d))%nat.
Proof.
  intros Hk. rewrite <- (insert_delete_id d k v Hk) at 1.
  apply total_insert_fresh, lookup_delete_eq.
Qed.

Lemma total_incr d k : Py.total (Py.incr k d) = S (Py.total d).
Proof.
  unfold Py.incr. destruct (d !! k) as [v|] eqn:Hk; simpl.
  - rewrite <- insert_delete_eq, total_insert_fresh by apply lookup_delete_eq.
    rewrite (total_delete d k v Hk). lia.
  - rewrite total_insert_fresh by done. lia.
Qed.
End total.
(** ** Fields *)

Lemma int_raises s e : Py.int s = Raise e → e = ValueError.
Proof.
  unfold Py.int. destruct (Py.split_sign _) as [sign body].
  destruct body as [|c body]; [congruence|].
  destruct (Py.is_underscore c); [congruence|].
  destruct (Py.scan_digits _ _ _ _) as [[v nd]|]; [|congruence].
  destruct (_ <? _)%nat; congruence.
Qed.

Lemma is_numeric_Ok s : is_numeric s = true ↔ ∃ n, Py.int s = Ok n.
Proof.
  unfold is_numeric. destruct (Py.int s); split; eauto; try congruence.
  intros [n Hn]. congruence.
Qed.

Lemma is_numeric_Raise s : is_numeric s = false ↔ Py.int s = Raise ValueError.
Proof.
  unfold is_numeric. destruct (Py.int s) as [n|e] eqn:E; split; try congruence.
  intros _. by rewrite (int_raises _ _ E).
Qed.

Lemma getitem_field line i :
  (i < length (fields_of line))%nat →
  Py.getitem (fields_of line) i = Ok (field line i).
Proof.
  intros Hi. unfold Py.getitem, field.
  destruct (lookup_lt_is_Some_2 _ _ Hi) as [x ->]. done.
Qed.

(** What one iteration does, case by case. *)
Lemma analyze_line_eq self line :
  analyze_line self line =
    if enough_fields line then
      match Py.int (field line V2_PROTO_NUM_IDX) with
      | Raise _ => Ok (set_errors (errors self + 1) self)
      | Ok n =>
          match table self !! n with
          | None => Raise KeyError
          | Some name =>
              match Py.int (field line V2_DST_PORT_IDX) with
              | Raise _ => Ok (set_errors (errors self + 1) self)
              | Ok port => Ok (record (port, Py.lower name) self)
              end
          end
      end
    else Ok (set_errors (errors self + 1) self).
Proof.
  unfold analyze_line, enough_fields. fold (fields_of line).
  destruct (Nat.ltb_spec (length (fields_of line)) V2_FIELDS_COUNT) as [Hlt|Hge].
  - by rewrite (proj2 (Nat.leb_gt _ _) Hlt).
  - rewrite (proj2 (Nat.leb_le _ _) Hge).
    unfold count_record, record_key, V2_FIELDS_COUNT in *.
    rewrite !getitem_field by (unfold V2_DST_PORT_IDX, V2_PROTO_NUM_IDX; lia).
    cbn [mbind result_bind].
    destruct (Py.int (field line V2_PROTO_NUM_IDX)) as [n|e] eqn:En; cbn [mbind result_bind].
    + unfold Py.dict_getitem. destruct (table self !! n) as [name|]; cbn [mbind result_bind]; [|done].
      destruct (Py.int (field line V2_DST_PORT_IDX)) as [port|e] eqn:Ep; cbn [mbind result_bind]; [done|].
      by rewrite (int_raises _ _ Ep).
    + by rewrite (int_raises _ _ En).
Qed.

(** ** Loops and batches *)

Lemma for_in_app {S A} (body : S → A → result S) s l1 l2 :
  for_in body s (l1 ++ l2) =
    match for_in body s l1 with
    | (s', None) => for_in body s' l2
    | r => r
    end.
Proof.
  revert s. induction l1 as [|a l1 IH]; intros s; simpl; [done|].
  destruct (body s a); [apply IH | done].
Qed.

Lemma for_in_invariant {S A} (I : S → Prop) (body : S → A → result S) s l :
  (∀ s a s', I s → body s a = Ok s' → I s') →
  I s → I (for_in body s l).1.
Proof.
  intros Hstep. revert s. induction l as [|a l IH]; intros s Hs; simpl; [done|].
  destruct (body s a) eqn:E; [eauto | done].
Qed.

Lemma submit_all_invariant (I : parser → Prop) self batches :
  (∀ s line s', I s → analyze_line s line = Ok s' → I s') →
  I self → I (submit_all self batches).
Proof.
  intros Hstep. unfold submit_all. revert self.
  induction batches as [|b bs IH]; intros self Hs; simpl; [done|].
  apply IH. by apply (for_in_invariant I analyze_line).
Qed.

Lemma chunks_fuel_concat fuel lines :
  (length lines ≤ fuel)%nat → concat (chunks_fuel fuel lines) = lines.
Proof.
  revert lines. induction fuel as [|fuel IH]; intros lines Hlen.
  - destruct lines; [done | simpl in Hlen; lia].
  - destruct lines as [|l lines]; [done|].
    cbn [chunks_fuel concat]. rewrite IH.
    + apply take_drop.
    + rewrite length_drop. cbn [length] in *. unfold CHUNK_SIZE. lia.
Qed.

Lemma chunks_concat lines : concat (chunks lines) = lines.
Proof. by apply chunks_fuel_concat. Qed.


(** ** One line *)

Lemma record_table key self : table (record key self) = table self.
Proof. unfold record. by destruct (tag_map self !! key). Qed.

Lemma record_tag_map key self : tag_map (record key self) = tag_map self.
Proof. unfold record. by destruct (tag_map self !! key). Qed.

Lemma record_errors key self : errors (record key self) = errors self.
Proof. unfold record. by destruct (tag_map self !! key). Qed.

Lemma record_tag_count key self :
  tag_count (record key self) =
    Py.incr (resolve_tag (tag_map self) key) (tag_count self).
Proof. unfold record, resolve_tag. by destruct (tag_map self !! key). Qed.

Lemma record_combinations_count key self :
  combinations_count (record key self) = Py.incr key (combinations_count self).
Proof. unfold record. by destruct (tag_map self !! key). Qed.

(** An iteration that does not raise either counts the line under one key
    or counts one error; the tables are not touched. *)
Lemma analyze_line_Ok self line self' :
  analyze_line self line = Ok self' →
  (∃ key, self' = record key self) ∨ self' = set_errors (errors self + 1) self.
Proof.
  rewrite analyze_line_eq.
  destruct (enough_fields line); [|naive_solver].
  destruct (Py.int (field line V2_PROTO_NUM_IDX)); [|naive_solver].
  destruct (table self !! a); [|done].
  destruct (Py.int (field line V2_DST_PORT_IDX)); naive_solver.
Qed.

Lemma analyze_line_table self line self' :
  analyze_line self line = Ok self' → table self' = table self.
Proof. intros [[key ->]| ->]%analyze_line_Ok; [apply record_table | done]. Qed.

Lemma analyze_line_tag_map self line self' :
  analyze_line self line = Ok self' → tag_map self' = tag_map self.
Proof. intros [[key ->]| ->]%analyze_line_Ok; [apply record_tag_map | done]. Qed.

(** Without a failing table lookup the iteration does not raise, and it
    counts the line exactly when the line passes validation. *)
Lemma analyze_line_no_failure self line :
  lookup_fails (table self) line = false →
  ∃ self', analyze_line self line = Ok self' ∧
    if spec_passes_validation line
    then ∃ key, self' = record key self
    else self' = set_errors (errors self + 1) self.
Proof.
  unfold lookup_fails, spec_passes_validation, is_numeric.
  rewrite analyze_line_eq.
  destruct (enough_fields line); cbn [andb]; [|eauto].
  destruct (Py.int (field line V2_PROTO_NUM_IDX)) as [n|]; cbn [andb].
  - destruct (table self !! n) as [name|] eqn:Hn.
    + intros _. destruct (Py.int (field line V2_DST_PORT_IDX)); cbn [andb]; eauto.
    + rewrite bool_decide_eq_false. done.
  - rewrite andb_false_r. eauto.
Qed.

(** ** Batches without a failing lookup *)

Lemma count_lines_app p l1 l2 :
  count_lines p (l1 ++ l2) = (count_lines p l1 + count_lines p l2)%nat.
Proof. unfold count_lines. by rewrite List.filter_app, length_app. Qed.

Lemma count_lines_cons p l ls :
  count_lines p (l :: ls) = ((if p l then 1 else 0) + count_lines p ls)%nat.
Proof. unfold count_lines. simpl. by destruct (p l). Qed.

Lemma batch_no_failure self lines :
  (∀ line, line ∈ lines → lookup_fails (table self) line = false) →
  ∃ self', _analyze_flow_logs self lines = (self', None)
    ∧ table self' = table self
    ∧ Py.total (combinations_count self') =
        (Py.total (combinations_count self)
         + count_lines spec_passes_validation lines)%nat.
Proof.
  unfold _analyze_flow_logs. revert self.
  induction lines as [|line lines IH]; intros self Hok.
  - exists self. unfold count_lines. simpl. repeat split; lia.
  - destruct (analyze_line_no_failure self line) as (s1 & E1 & Hs1).
    { apply Hok. left. }
    assert (table s1 = table self) as Ht by by eapply analyze_line_table.
    destruct (IH s1) as (s2 & E2 & Ht2 & Hc2).
    { intros l Hl. rewrite Ht. apply Hok. by right. }
    exists s2. simpl. rewrite E1, E2. split; [done|]. split; [congruence|].
    rewrite Hc2, count_lines_cons.
    destruct (spec_passes_validation line).
    + destruct Hs1 as [key ->].
      rewrite record_combinations_count, total_incr. lia.
    + subst s1. simpl. lia.
Qed.

Lemma submit_all_no_failure self batches :
  (∀ line, line ∈ concat batches → lookup_fails (table self) line = false) →
  table (submit_all self batches) = table self
  ∧ Py.total (combinations_count (submit_all self batches)) =
      (Py.total (combinations_count self)
       + count_lines spec_passes_validation (concat batches))%nat.
Proof.
  unfold submit_all. revert self.
  induction batches as [|b bs IH]; intros self Hok; simpl.
  - unfold count_lines. simpl. split; [done | lia].
  - destruct (batch_no_failure self b) as (s1 & E1 & Ht1 & Hc1).
    { intros l Hl. apply Hok. simpl. apply elem_of_app. by left. }
    rewrite E1. simpl.
    destruct (IH s1) as [Ht2 Hc2].
    { intros l Hl. rewrite Ht1. apply Hok. simpl. apply elem_of_app. by right. }
    split; [congruence|]. rewrite Hc2, Hc1, count_lines_app. lia.
Qed.

(** ** The driver *)

Lemma analyze_flow_logs_parser w self :
  (analyze_flow_logs w self).1.1 = self
  ∨ ∃ lines, text_files w !! default "" (flowlogs self) = Some lines
      ∧ Py.truthy (flowlogs self) = true
      ∧ (analyze_flow_logs w self).1.1 = submit_all self (chunks lines).
Proof.
  unfold analyze_flow_logs. destruct (Py.truthy (flowlogs self)); simpl; [|by left].
  destruct (text_files w !! _) as [lines|]; simpl; [right; eauto | by left].
Qed.

Lemma analyze_flow_logs_invariant (I : parser → Prop) w self :
  (∀ s line s', I s → analyze_line s line = Ok s' → I s') →
  I self → I (analyze_flow_logs w self).1.1.
Proof.
  intros Hstep Hs.
  destruct (analyze_flow_logs_parser w self) as [->|(lines & _ & _ & ->)]; [done|].
  by apply submit_all_invariant.
Qed.

Lemma main_stages_invariant (I : parser → Prop) w fl :
  (∀ s m, I s → I (set_tag_map m s)) →
  (∀ s t, I s → I (set_table t s)) →
  (∀ s line s', I s → analyze_line s line = Ok s' → I s') →
  I fl → I (main_stages w fl).1.1.
Proof.
  intros Htm Htb Hstep Hfl. unfold main_stages.
  assert (I (read_mappings_file w fl).1) as H1.
  { unfold read_mappings_file. destruct (negb _); [done|].
    destruct (TagMappings.process _ _) as [buff|[]]; simpl; auto. }
  destruct (read_mappings_file w fl) as [fl1 [e1|]]; simpl in *; [done|].
  assert (I (read_proto_mappings w fl1).1) as H2.
  { unfold read_proto_mappings. destruct (Py.truthy _); [|simpl; auto].
    destruct (ProtoMappings.process _ _) as [buff|[]]; simpl; auto. }
  destruct (read_proto_mappings w fl1) as [fl2 [e2|]]; simpl in *; [done|].
  by apply analyze_flow_logs_invariant.
Qed.

Lemma main_parser w version logs mappings output pmf :
  (main w version logs mappings output pmf).1.1 =
    (main_stages w (init version logs mappings output pmf)).1.1.
Proof.
  unfold main. destruct (main_stages _ _) as [[fl w'] [[]|]]; done.
Qed.

Lemma main_world w version logs mappings output pmf :
  (main w version logs mappings output pmf).1.2 =
    (main_stages w (init version logs mappings output pmf)).1.2.
Proof.
  unfold main. destruct (main_stages _ _) as [[fl w'] [[]|]]; done.
Qed.

(** ** Order of the lines *)

Lemma incr_comm `{Countable K} (k1 k2 : K) (d : gmap K nat) :
  Py.incr k1 (Py.incr k2 d) = Py.incr k2 (Py.incr k1 d).
Proof.
  unfold Py.incr. destruct (decide (k1 = k2)) as [->|Hne]; [done|].
  rewrite !lookup_insert_ne by done. by apply insert_insert_ne.
Qed.

Lemma record_key_eq self line :
  enough_fields line = true →
  record_key self (fields_of line) =
    match Py.int (field line V2_PROTO_NUM_IDX) with
    | Raise _ => Raise ValueError
    | Ok n =>
        match table self !! n with
        | None => Raise KeyError
        | Some name =>
            match Py.int (field line V2_DST_PORT_IDX) with
            | Raise _ => Raise ValueError
            | Ok port => Ok (port, Py.lower name)
            end
        end
    end.
Proof.
  unfold enough_fields, V2_FIELDS_COUNT. intros Hlen%Nat.leb_le.
  unfold record_key.
  rewrite !getitem_field by (unfold V2_DST_PORT_IDX, V2_PROTO_NUM_IDX; lia).
  cbn [mbind result_bind].
  destruct (Py.int (field line V2_PROTO_NUM_IDX)) as [n|e] eqn:En; cbn [mbind result_bind].
  - unfold Py.dict_getitem. destruct (table self !! n) as [name|]; cbn [mbind result_bind]; [|done].
    destruct (Py.int (field line V2_DST_PORT_IDX)) as [port|e] eqn:Ep; cbn [mbind result_bind]; [done|].
    by rewrite (int_raises _ _ Ep).
  - by rewrite (int_raises _ _ En).
Qed.

Lemma line_key_table s1 s2 line :
  table s1 = table s2 → line_key s1 line = line_key s2 line.
Proof.
  intros Ht. unfold line_key. destruct (enough_fields line) eqn:E; [|done].
  by rewrite !record_key_eq, Ht.
Qed.

Lemma line_key_record self line port num name :
  is_record line port num → table self !! num = Some name →
  line_key self line = Some (port, Py.lower name).
Proof.
  intros (Hlen & Hp & Hn) Ht. unfold line_key.
  by rewrite Hlen, record_key_eq, Hn, Ht, Hp.
Qed.

Lemma analyze_line_effect self0 self line :
  table self = table self0 →
  lookup_fails (table self0) line = false →
  analyze_line self line = Ok (line_effect self0 line self).
Proof.
  intros Ht. rewrite analyze_line_eq. unfold lookup_fails, line_effect, line_key.
  destruct (enough_fields line) eqn:E; cbn [andb]; [|done].
  rewrite record_key_eq by done.
  destruct (Py.int (field line V2_PROTO_NUM_IDX)) as [n|]; [|done].
  rewrite Ht. destruct (table self0 !! n) as [name|].
  - intros _. by destruct (Py.int (field line V2_DST_PORT_IDX)).
  - by rewrite bool_decide_eq_false.
Qed.

Lemma line_effect_table self0 line self :
  table (line_effect self0 line self) = table self.
Proof.
  unfold line_effect. destruct (line_key self0 line); [apply record_table | done].
Qed.

Lemma record_unfold key self :
  record key self =
    set_combinations_count (Py.incr key (combinations_count self))
      (set_tag_count
         (Py.incr (resolve_tag (tag_map self) key) (tag_count self)) self).
Proof. unfold record, resolve_tag. by destruct (tag_map self !! key). Qed.

Lemma line_effect_comm self0 x y self :
  line_effect self0 x (line_effect self0 y self)
  = line_effect self0 y (line_effect self0 x self).
Proof.
  unfold line_effect.
  destruct (line_key self0 x) as [kx|], (line_key self0 y) as [ky|];
    rewrite ?record_unfold; unfold set_combinations_count, set_tag_count,
      set_errors; simpl; [|done..].
  f_equal; apply incr_comm.
Qed.

(** A batch without a failing lookup is the composition of the effects of
    its lines. *)
Lemma batch_effects self0 self lines :
  table self = table self0 →
  (∀ line, line ∈ lines → lookup_fails (table self0) line = false) →
  _analyze_flow_logs self lines
  = (foldl (λ s line, line_effect self0 line s) self lines, None).
Proof.
  unfold _analyze_flow_logs. revert self.
  induction lines as [|line lines IH]; intros self Ht Hok; simpl; [done|].
  rewrite (analyze_line_effect self0) by (done || apply Hok; left).
  apply IH; [by rewrite line_effect_table|].
  intros l Hl. apply Hok. by right.
Qed.

Lemma effects_permutation self0 l1 l2 self :
  l1 ≡ₚ l2 →
  foldl (λ s line, line_effect self0 line s) self l1
  = foldl (λ s line, line_effect self0 line s) self l2.
Proof.
  intros Hp. revert self.
  induction Hp as [|x l1 l2 _ IH|x y l|l1 l2 l3 _ IH1 _ IH2]; intros self; simpl.
  - done.
  - apply IH.
  - by rewrite line_effect_comm.
  - by rewrite IH1.
Qed.

(** The order of the lines of a batch does not matter, as long as no
    lookup fails. *)
Lemma batch_permutation self l1 l2 :
  l1 ≡ₚ l2 →
  (∀ line, line ∈ l2 → lookup_fails (table self) line = false) →
  _analyze_flow_logs self l1 = _analyze_flow_logs self l2.
Proof.
  intros Hp Hok.
  rewrite !(batch_effects self self) by (done || intros l Hl; apply Hok; by rewrite <- ?Hp).
  by rewrite (effects_permutation self l1 l2).
Qed.

Lemma empty_line_short : enough_fields "" = false.
Proof. reflexivity. Qed.

Lemma lookup_fails_record self line port num name :
  is_record line port num → table self !! num = Some name →
  lookup_fails (table self) line = false.
Proof.
  intros (Hlen & _ & Hn) Ht. unfold lookup_fails.
  rewrite Hlen, Hn. simpl. rewrite bool_decide_eq_false. by rewrite Ht.
Qed.

(** ** Tags of a run without tag mappings *)

Lemma only_untagged_line self line self' :
  only_untagged self → analyze_line self line = Ok self' → only_untagged self'.
Proof.
  intros [Hm Hc] [[key ->]| ->]%analyze_line_Ok; [|done].
  split; [by rewrite record_tag_map|].
  intros tag Htag. rewrite record_tag_count, Hm. unfold resolve_tag, Py.incr.
  rewrite lookup_empty. simpl. rewrite lookup_insert_ne by done. by apply Hc.
Qed.

Lemma only_untagged_main_stages w fl :
  read_mappings_file w fl = (fl, None) →
  only_untagged fl → only_untagged (main_stages w fl).1.1.
Proof.
  intros Hread Hfl. unfold main_stages. rewrite Hread.
  assert (only_untagged (read_proto_mappings w fl).1) as H2.
  { unfold read_proto_mappings. destruct (Py.truthy _); [|done].
    destruct (ProtoMappings.process _ _) as [buff|[]]; done. }
  destruct (read_proto_mappings w fl) as [fl2 [e2|]]; simpl in *; [done|].
  apply analyze_flow_logs_invariant; [|done].
  intros ???. apply only_untagged_line.
Qed.

Lemma read_csv_file_unreadable w path :
  csv_files w !! path = None → read_csv_file w path = [].
Proof. unfold read_csv_file. by intros ->. Qed.

(** ** What the loading stages leave alone *)

Lemma read_mappings_file_same w fl :
  same_run_state (read_mappings_file w fl).1 fl
  ∧ table (read_mappings_file w fl).1 = table fl.
Proof.
  unfold read_mappings_file, same_run_state. destruct (negb _); [done|].
  destruct (TagMappings.process _ _) as [buff|[]]; done.
Qed.

Lemma read_proto_mappings_same w fl :
  same_run_state (read_proto_mappings w fl).1 fl
  ∧ tag_map (read_proto_mappings w fl).1 = tag_map fl.
Proof.
  unfold read_proto_mappings, same_run_state. destruct (Py.truthy _); [|done].
  destruct (ProtoMappings.process _ _) as [buff|[]]; done.
Qed.

Lemma read_mappings_file_absent w fl :
  Py.truthy (mapfile fl) = false → read_mappings_file w fl = (fl, None).
Proof. unfold read_mappings_file. by intros ->. Qed.

Lemma analyze_flow_logs_absent w fl :
  Py.truthy (flowlogs fl) = false → analyze_flow_logs w fl = (fl, w, None).
Proof. unfold analyze_flow_logs. by intros ->. Qed.

Lemma _write_output_file_absent fl w :
  Py.truthy (outputfile fl) = false → _write_output_file fl w = w.
Proof. unfold _write_output_file. by intros ->. Qed.

Lemma analyze_flow_logs_no_output w fl :
  Py.truthy (outputfile fl) = false → (analyze_flow_logs w fl).1.2 = w.
Proof.
  intros Hout. unfold analyze_flow_logs. destruct (negb _); [done|].
  destruct (text_files w !! _) as [lines|]; [|done]. simpl.
  apply _write_output_file_absent.
  assert (∀ self, outputfile self = outputfile fl →
                  outputfile (submit_all self (chunks lines)) = outputfile fl) as H.
  { intros self Hs.
    apply (submit_all_invariant (λ s, outputfile s = outputfile fl)); [|done].
    intros s line s' Hs' [[key ->]| ->]%analyze_line_Ok; [|done].
    unfold record. by destruct (tag_map s !! key). }
  by rewrite H.
Qed.

(** ** Batches in general *)

(** A line has a key exactly when it passes validation and its protocol
    number is in the table. *)
Lemma has_some_key_validated self line :
  has_some_key self line
  = spec_passes_validation line && negb (lookup_fails (table self) line).
Proof.
  unfold has_some_key, line_key, spec_passes_validation, lookup_fails, is_numeric.
  destruct (enough_fields line) eqn:Hlen; [|done]. cbn [andb negb].
  rewrite record_key_eq by done.
  destruct (Py.int (field line V2_PROTO_NUM_IDX)) as [n|];
    [|by rewrite andb_false_r].
  destruct (table self !! n) as [name|] eqn:Hn.
  - rewrite bool_decide_eq_false_2 by done.
    by destruct (Py.int (field line V2_DST_PORT_IDX)).
  - rewrite bool_decide_eq_true_2 by done. cbn [andb negb]. by rewrite andb_false_r.
Qed.

Lemma has_some_key_table s1 s2 line :
  table s1 = table s2 → has_some_key s1 line = has_some_key s2 line.
Proof. intros Ht. unfold has_some_key. by rewrite (line_key_table s1 s2). Qed.

(** A failing lookup raises, whatever the port field holds. *)
Lemma lookup_failure_raises self line :
  lookup_fails (table self) line = true → analyze_line self line = Raise KeyError.
Proof.
  unfold lookup_fails. rewrite analyze_line_eq.
  destruct (enough_fields line); [|done]. cbn [andb].
  destruct (Py.int (field line V2_PROTO_NUM_IDX)) as [n|]; [|done].
  intros Hn%bool_decide_eq_true. by rewrite Hn.
Qed.

Lemma analyze_line_total self line self' :
  analyze_line self line = Ok self' →
  Py.total (combinations_count self')
  = (Py.total (combinations_count self)
     + if has_some_key self line then 1 else 0)%nat.
Proof.
  rewrite analyze_line_eq. unfold has_some_key, line_key.
  destruct (enough_fields line) eqn:Hlen; [|intros [= <-]; simpl; lia].
  rewrite record_key_eq by done.
  destruct (Py.int (field line V2_PROTO_NUM_IDX)) as [n|];
    [|intros [= <-]; simpl; lia].
  destruct (table self !! n) as [name|]; [|done].
  destruct (Py.int (field line V2_DST_PORT_IDX)) as [port|];
    intros [= <-]; [|simpl; lia].
  by rewrite record_combinations_count, total_incr, Nat.add_1_r.
Qed.

(** Whatever happens to a batch, only lines with a key are counted. *)
Lemma batch_total_bound self lines :
  (Py.total (combinations_count (_analyze_flow_logs self lines).1)
   ≤ Py.total (combinations_count self)
     + count_lines (has_some_key self) lines)%nat.
Proof.
  unfold _analyze_flow_logs. revert self.
  induction lines as [|line lines IH]; intros self; simpl; [lia|].
  rewrite count_lines_cons.
  destruct (analyze_line self line) as [s1|e] eqn:E; simpl; [|lia].
  pose proof (analyze_line_total self line s1 E) as Ht.
  pose proof (analyze_line_table self line s1 E) as Htab.
  specialize (IH s1).
  assert (count_lines (has_some_key s1) lines
          = count_lines (has_some_key self) lines) as Hc.
  { unfold count_lines. f_equal. apply List.filter_ext.
    intros l. by apply has_some_key_table. }
  lia.
Qed.

Lemma batch_table self lines :
  table (_analyze_flow_logs self lines).1 = table self.
Proof.
  unfold _analyze_flow_logs.
  apply (for_in_invariant (λ s, table s = table self) analyze_line); [|done].
  intros s line s' Hs E. by rewrite (analyze_line_table s line s' E).
Qed.

Lemma submit_all_total_bound self batches :
  (Py.total (combinations_count (submit_all self batches))
   ≤ Py.total (combinations_count self)
     + count_lines (has_some_key self) (concat batches))%nat.
Proof.
  unfold submit_all. revert self.
  induction batches as [|b bs IH]; intros self; simpl; [lia|].
  rewrite count_lines_app. specialize (IH (_analyze_flow_logs self b).1).
  pose proof (batch_total_bound self b).
  assert (count_lines (has_some_key (_analyze_flow_logs self b).1) (concat bs)
          = count_lines (has_some_key self) (concat bs)) as Hc.
  { unfold count_lines. f_equal. apply List.filter_ext.
    intros l. apply has_some_key_table, batch_table. }
  lia.
Qed.

(** ** A file that cannot be opened, and the same file empty *)

Section unreadable.
Variables (w : world) (path : string).
Hypothesis Hfile : csv_files w !! path = None.

Lemma read_csv_file_empty fname :
  read_csv_file (with_empty_csv path w) fname = read_csv_file w fname.
Proof.
  unfold read_csv_file. simpl. destruct (decide (path = fname)) as [<-|Hne].
  - by rewrite lookup_insert_eq, Hfile.
  - by rewrite lookup_insert_ne.
Qed.

Lemma read_mappings_file_empty fl :
  read_mappings_file (with_empty_csv path w) fl = read_mappings_file w fl.
Proof.
  unfold read_mappings_file, TagMappings.process.
  by rewrite read_csv_file_empty.
Qed.

Lemma read_proto_mappings_empty fl :
  read_proto_mappings (with_empty_csv path w) fl = read_proto_mappings w fl.
Proof.
  unfold read_proto_mappings, ProtoMappings.process.
  by rewrite read_csv_file_empty.
Qed.

Lemma analyze_flow_logs_empty fl :
  analyze_flow_logs (with_empty_csv path w) fl
  = ((analyze_flow_logs w fl).1.1,
     with_empty_csv path (analyze_flow_logs w fl).1.2,
     (analyze_flow_logs w fl).2).
Proof.
  unfold analyze_flow_logs. simpl text_files.
  destruct (negb _); [done|].
  destruct (text_files w !! _) as [lines|]; [|done]. simpl.
  unfold _write_output_file. by destruct (negb _).
Qed.

Lemma main_empty version logs mappings output pmf :
  main (with_empty_csv path w) version logs mappings output pmf
  = ((main w version logs mappings output pmf).1.1,
     with_empty_csv path (main w version logs mappings output pmf).1.2,
     (main w version logs mappings output pmf).2).
Proof.
  unfold main, main_stages.
  rewrite read_mappings_file_empty.
  destruct (read_mappings_file w _) as [fl1 [e1|]]; [by destruct e1|].
  rewrite read_proto_mappings_empty.
  destruct (read_proto_mappings w fl1) as [fl2 [e2|]]; [by destruct e2|].
  rewrite analyze_flow_logs_empty.
  destruct (analyze_flow_logs w fl2) as [[fl3 w3] [e3|]]; [by destruct e3|done].
Qed.
End unreadable.

(** ** Concurrent callers: the lock invariant *)

Lemma pc_outside_dec (p : pc) : p = Outside ∨ p ≠ Outside.
Proof. destruct p; by (left + right). Qed.

Section lock.
Variable self0 : parser.

Lemma others_outside c i th :
  lock_inv self0 c → pool c !! i = Some th →
  at_pc th ≠ Outside ∨ lock_owner c = None →
  ∀ j thj, j ≠ i → pool c !! j = Some thj → at_pc thj = Outside.
Proof.
  intros HI Hi Hlock j thj Hne Hj.
  destruct (pc_outside_dec (at_pc thj)) as [|Hin]; [done|].
  pose proof (inv_inside _ _ HI j thj Hj Hin) as Hown.
  destruct Hlock as [Hth|Hfree]; [|congruence].
  pose proof (inv_inside _ _ HI i th Hi Hth). congruence.
Qed.

Lemma pc_ok_outside o o' th :
  at_pc th = Outside → pc_ok self0 o th → pc_ok self0 o' th.
Proof. unfold pc_ok. by intros ->. Qed.

(** Replacing the thread that moves keeps the invariant, if the new
    thread and the new object fit together. *)
Lemma set_thread_inv c i th th' o' own' :
  lock_inv self0 c → pool c !! i = Some th →
  at_pc th ≠ Outside ∨ lock_owner c = None →
  table o' = table self0 → tag_map o' = tag_map self0 →
  (at_pc th' ≠ Outside ∧ own' = Some i) ∨ (at_pc th' = Outside ∧ own' = None) →
  pc_ok self0 o' th' →
  (∀ line, line ∈ todo th' → line ∈ todo th) →
  lock_inv self0 (set_thread i th' o' own' c).
Proof.
  intros HI Hi Hlock Ht Hm Hown Hpc Htodo.
  pose proof (others_outside c i th HI Hi Hlock) as Hothers.
  assert (i < length (pool c))%nat as Hlen by by eapply lookup_lt_Some.
  assert (∀ j thj, pool (set_thread i th' o' own' c) !! j = Some thj →
            (j = i ∧ thj = th') ∨ (j ≠ i ∧ pool c !! j = Some thj)) as Hcase.
  { intros j thj. simpl. destruct (decide (i = j)) as [->|Hne].
    - rewrite list_lookup_insert_eq by done. intros [= <-]. by left.
    - rewrite list_lookup_insert_ne by done. intros ?. right. split; [congruence|done]. }
  split; simpl obj; simpl lock_owner.
  - done.
  - done.
  - intros j thj [[-> ->]|[Hne Hj]]%Hcase Hin.
    + by destruct Hown as [[_ ->]|[? _]].
    + by rewrite (Hothers j thj Hne Hj) in Hin.
  - intros j ->. destruct Hown as [[Hin [= ->]]|[_ [=]]].
    exists th'. split; [|done]. simpl. by apply list_lookup_insert_eq.
  - intros j thj [[-> ->]|[Hne Hj]]%Hcase; [done|].
    eapply pc_ok_outside; [by eapply Hothers|]. by eapply (inv_pc _ _ HI).
  - intros j thj line [[-> ->]|[Hne Hj]]%Hcase Hl.
    + eapply (inv_known _ _ HI); [exact Hi|]. by apply Htodo.
    + by eapply (inv_known _ _ HI).
Qed.

Lemma loop_head_eq self line :
  table self = table self0 → tag_map self = tag_map self0 →
  lookup_fails (table self0) line = false →
  loop_head self line =
    Ok match line_key self0 line with
       | Some key =>
           TagRead key (resolve_tag (tag_map self0) key)
             (default 0%nat (tag_count self !! resolve_tag (tag_map self0) key))
       | None => ErrRead (errors self)
       end.
Proof.
  intros Ht Hm. rewrite <- (line_key_table self self0 line Ht).
  unfold loop_head, lookup_fails, line_key, enough_fields.
  fold (fields_of line). rewrite <- Ht, <- Hm.
  destruct (Nat.ltb_spec (length (fields_of line)) V2_FIELDS_COUNT) as [Hlt|Hge].
  { by rewrite (proj2 (Nat.leb_gt _ _) Hlt). }
  pose proof (proj2 (Nat.leb_le _ _) Hge) as Hlen. rewrite Hlen. simpl.
  rewrite (record_key_eq self line Hlen).
  destruct (Py.int (field line V2_PROTO_NUM_IDX)) as [n|]; [|done].
  destruct (table self !! n) as [name|].
  - intros _. destruct (Py.int (field line V2_DST_PORT_IDX)) as [port|]; [|done].
    unfold resolve_tag. by destruct (tag_map self !! _).
  - by rewrite bool_decide_eq_false.
Qed.

(** Under the invariant, a step is a stutter of a thread that is done or
    waits for the lock, or one of the moves. *)
Lemma step_cases c i th :
  lock_inv self0 c → pool c !! i = Some th →
  (thread_step i c = c ∧ at_pc th = Outside
   ∧ (calls_left th = [] ∨ lock_owner c ≠ None))
  ∨ ∃ th' o' own',
      thread_step i c = set_thread i th' o' own' c
      ∧ move self0 c i th th' o' own'.
Proof.
  intros HI Hi. unfold thread_step. rewrite Hi.
  pose proof (inv_pc _ _ HI i th Hi) as Hpc.
  pose proof (inv_inside _ _ HI i th Hi) as Hin.
  unfold pc_ok, head_key in Hpc.
  destruct th as [p ls cs]. simpl in *.
  destruct p as [| |key tag v|key|key v|v].
  - destruct cs as [|lines calls]; [left; auto|].
    destruct (lock_owner c) eqn:Hown;
      [left; split; [done|]; split; [done|]; by right|].
    right. do 3 eexists. split; [done|]. by eapply move_acquire.
  - right. rewrite Hin by done. destruct ls as [|line rest].
    + do 3 eexists. split; [done|]. by apply move_release.
    + rewrite loop_head_eq;
        [|apply HI..|apply (inv_known _ _ HI i _ line Hi); left].
      destruct (line_key self0 line) as [key|] eqn:Hk.
      * do 3 eexists. split; [done|]. by eapply move_accept.
      * do 3 eexists. split; [done|]. by eapply move_reject.
  - right. rewrite Hin by done.
    destruct Hpc as (-> & -> & line & rest & -> & Hk).
    do 3 eexists. split; [done|]. by eapply move_write_tag.
  - right. rewrite Hin by done.
    destruct Hpc as (line & rest & -> & Hk).
    do 3 eexists. split; [done|]. by eapply move_read_comb.
  - right. rewrite Hin by done.
    destruct Hpc as (-> & line & rest & -> & Hk).
    do 3 eexists. split; [done|]. by eapply move_write_comb.
  - right. rewrite Hin by done.
    destruct Hpc as (-> & line & rest & -> & Hk).
    do 3 eexists. split; [done|]. by eapply move_write_err.
Qed.

Lemma move_lock_inv c i th th' o' own' :
  lock_inv self0 c → pool c !! i = Some th →
  move self0 c i th th' o' own' →
  lock_inv self0 (set_thread i th' o' own' c).
Proof.
  intros HI Hi Hmove.
  pose proof (inv_table _ _ HI) as Ht. pose proof (inv_tag_map _ _ HI) as Hm.
  destruct Hmove as [lines calls Hp Hls Hcs Hfree|Hp Hls|line rest key Hp Hls Hk
    |line rest Hp Hls Hk|line rest key tag v Hp Hls Hk|line rest key Hp Hls Hk
    |line rest key v Hp Hls Hk|line rest v Hp Hls Hk];
    (eapply set_thread_inv; [exact HI|exact Hi|..]);
    try (by (left; rewrite Hp) || by right);
    try (by left); try (by right); try done;
    unfold pc_ok, head_key, todo; simpl; try rewrite Hls; try rewrite Hcs;
    eauto 10.
  all: intros l Hl; by right.
Qed.

Lemma sum_list_with_insert {A} (f : A → nat) (l : list A) i x x' :
  l !! i = Some x →
  (sum_list_with f (<[i := x']> l) + f x = sum_list_with f l + f x')%nat.
Proof.
  revert i. induction l as [|y l IH]; intros [|i] Hi; simpl in *; try done.
  - injection Hi as ->. lia.
  - specialize (IH i Hi). lia.
Qed.

(** What a move does to the lines left and to the counters. *)
Lemma move_counts c i th th' o' own' :
  move self0 c i th th' o' own' →
  (tag_map o' = tag_map (obj c)) ∧
  ((todo th' = todo th
    ∧ combinations_count o' = combinations_count (obj c)
    ∧ (Py.total (tag_count o') + half_done th
       = Py.total (tag_count (obj c)) + half_done th')%nat)
   ∨ (∃ line key, todo th = line :: todo th'
        ∧ line_key self0 line = Some key
        ∧ combinations_count o' = Py.incr key (combinations_count (obj c))
        ∧ tag_count o' = tag_count (obj c)
        ∧ half_done th = 1%nat ∧ half_done th' = 0%nat)
   ∨ (∃ line, todo th = line :: todo th'
        ∧ line_key self0 line = None
        ∧ combinations_count o' = combinations_count (obj c)
        ∧ tag_count o' = tag_count (obj c)
        ∧ half_done th = 0%nat ∧ half_done th' = 0%nat)).
Proof.
  intros [lines calls Hp Hls Hcs Hfree|Hp Hls|line rest key Hp Hls Hk
    |line rest Hp Hls Hk|line rest key tag v Hp Hls Hk|line rest key Hp Hls Hk
    |line rest key v Hp Hls Hk|line rest v Hp Hls Hk];
    (split; [done|]); unfold todo, half_done; simpl; rewrite ?Hls, ?Hcs, ?Hp;
    simpl.
  - left. done.
  - left. done.
  - left. done.
  - left. done.
  - left. rewrite total_incr. split; [done|]. split; [done|]. lia.
  - left. done.
  - right. left. exists line, key. done.
  - right. right. exists line. done.
Qed.

Lemma incr_lookup `{Countable K} (k k' : K) (d : gmap K nat) :
  default 0%nat (Py.incr k d !! k')
  = (default 0 (d !! k') + if decide (k = k') then 1 else 0)%nat.
Proof.
  unfold Py.incr. destruct (decide (k = k')) as [->|Hne].
  - rewrite lookup_insert_eq. simpl. lia.
  - rewrite lookup_insert_ne by done. lia.
Qed.

Lemma has_key_eq k line key :
  line_key self0 line = Some key →
  has_key self0 k line = if decide (key = k) then true else false.
Proof.
  intros Hk. unfold has_key. rewrite Hk.
  destruct (decide (key = k)) as [->|Hne].
  - by rewrite bool_decide_eq_true.
  - rewrite bool_decide_eq_false. congruence.
Qed.

Lemma has_key_none k line :
  line_key self0 line = None → has_key self0 k line = false.
Proof. intros Hk. unfold has_key. rewrite Hk. by apply bool_decide_eq_false. Qed.

Lemma has_some_key_eq line :
  has_some_key self0 line
  = match line_key self0 line with Some _ => true | None => false end.
Proof. done. Qed.

(** Counted plus pending is constant, key by key and in all. *)
Lemma move_credit c i th th' o' own' k :
  pool c !! i = Some th → move self0 c i th th' o' own' →
  credit self0 k (set_thread i th' o' own' c) = credit self0 k c.
Proof.
  intros Hi Hmove. unfold credit, pending. simpl.
  pose proof (sum_list_with_insert
                (λ th, count_lines (has_key self0 k) (todo th))
                (pool c) i th th' Hi) as Hsum. simpl in Hsum.
  destruct (move_counts c i th th' o' own' Hmove)
    as [_ [(Htodo & Hcc & _)|[(line & key & Htodo & Hk & Hcc & _)
                             |(line & Htodo & Hk & Hcc & _)]]];
    rewrite Hcc; rewrite Htodo in Hsum.
  - lia.
  - rewrite count_lines_cons, (has_key_eq k line key Hk) in Hsum.
    rewrite incr_lookup. destruct (decide (key = k)); lia.
  - rewrite count_lines_cons, (has_key_none k line Hk) in Hsum. lia.
Qed.

Lemma move_credit_total c i th th' o' own' :
  pool c !! i = Some th → move self0 c i th th' o' own' →
  credit_total self0 (set_thread i th' o' own' c) = credit_total self0 c.
Proof.
  intros Hi Hmove. unfold credit_total, pending. simpl.
  pose proof (sum_list_with_insert
                (λ th, count_lines (has_some_key self0) (todo th))
                (pool c) i th th' Hi) as Hsum. simpl in Hsum.
  destruct (move_counts c i th th' o' own' Hmove)
    as [_ [(Htodo & Hcc & _)|[(line & key & Htodo & Hk & Hcc & _)
                             |(line & Htodo & Hk & Hcc & _)]]];
    rewrite Hcc; rewrite Htodo in Hsum.
  - lia.
  - rewrite count_lines_cons, has_some_key_eq, Hk in Hsum.
    rewrite total_incr. lia.
  - rewrite count_lines_cons, has_some_key_eq, Hk in Hsum. lia.
Qed.

(** The two counters differ by the records caught between their two
    updates. *)
Lemma move_paired c i th th' o' own' :
  pool c !! i = Some th → move self0 c i th th' o' own' →
  paired c → paired (set_thread i th' o' own' c).
Proof.
  intros Hi Hmove. unfold paired. simpl.
  pose proof (sum_list_with_insert half_done (pool c) i th th' Hi) as Hsum.
  destruct (move_counts c i th th' o' own' Hmove)
    as [_ [(_ & Hcc & Hh)|[(line & key & _ & _ & Hcc & Htc & Hh & Hh')
                          |(line & _ & _ & Hcc & Htc & Hh & Hh')]]];
    rewrite Hcc; rewrite ?Htc.
  - lia.
  - rewrite total_incr. lia.
  - lia.
Qed.

Lemma move_weight c i th th' o' own' :
  pool c !! i = Some th → move self0 c i th th' o' own' →
  (weight (set_thread i th' o' own' c) < weight c)%nat.
Proof.
  intros Hi Hmove. unfold weight. simpl.
  pose proof (sum_list_with_insert thread_weight (pool c) i th th' Hi) as Hsum.
  assert (thread_weight th' < thread_weight th)%nat; [|lia].
  destruct Hmove as [lines calls Hp Hls Hcs Hfree|Hp Hls|line rest key Hp Hls Hk
    |line rest Hp Hls Hk|line rest key tag v Hp Hls Hk|line rest key Hp Hls Hk
    |line rest key v Hp Hls Hk|line rest v Hp Hls Hk];
    unfold thread_weight; simpl; rewrite ?Hp, ?Hls, ?Hcs; simpl; lia.
Qed.

(** *** Steps and schedules *)

Lemma step_keeps c i :
  lock_inv self0 c →
  lock_inv self0 (thread_step i c)
  ∧ (∀ k, credit self0 k (thread_step i c) = credit self0 k c)
  ∧ credit_total self0 (thread_step i c) = credit_total self0 c
  ∧ (paired c → paired (thread_step i c))
  ∧ (weight (thread_step i c) ≤ weight c)%nat.
Proof.
  intros HI. destruct (pool c !! i) as [th|] eqn:Hi.
  - destruct (step_cases c i th HI Hi)
      as [[-> _]|(th' & o' & own' & -> & Hmove)]; [done|].
    split; [by eapply move_lock_inv|].
    split; [intros k; by eapply move_credit|].
    split; [by eapply move_credit_total|].
    split; [by eapply move_paired|].
    pose proof (move_weight c i th th' o' own' Hi Hmove). lia.
  - unfold thread_step. by rewrite Hi.
Qed.

Lemma run_keeps sched c :
  lock_inv self0 c →
  lock_inv self0 (run sched c)
  ∧ (∀ k, credit self0 k (run sched c) = credit self0 k c)
  ∧ credit_total self0 (run sched c) = credit_total self0 c
  ∧ (paired c → paired (run sched c)).
Proof.
  unfold run. revert c. induction sched as [|i sched IH]; intros c HI; simpl.
  - done.
  - destruct (step_keeps c i HI) as (HI' & Hk & Ht & Hp & _).
    destruct (IH _ HI') as (HI'' & Hk' & Ht' & Hp').
    split; [done|]. split; [intros k; by rewrite Hk', Hk|].
    split; [by rewrite Ht', Ht | auto].
Qed.

Lemma run_app s1 s2 c : run (s1 ++ s2) c = run s2 (run s1 c).
Proof. unfold run. apply foldl_app. Qed.

(** *** The end of a run *)

Lemma finished_thread c i th :
  lock_inv self0 c → finished c = true → pool c !! i = Some th →
  at_pc th = Outside ∧ todo th = [].
Proof.
  intros HI Hfin Hi. unfold finished in Hfin.
  assert (thread_done th = true) as Hd.
  { rewrite forallb_forall in Hfin. apply Hfin, list_elem_of_In.
    by eapply list_elem_of_lookup_2. }
  pose proof (inv_pc _ _ HI i th Hi) as Hpc. unfold pc_ok in Hpc.
  unfold thread_done in Hd. unfold todo.
  destruct (at_pc th); try done. destruct (calls_left th); [|done].
  by rewrite Hpc.
Qed.

Lemma finished_sums c (f : thread → nat) :
  lock_inv self0 c → finished c = true →
  (∀ th, at_pc th = Outside → todo th = [] → f th = 0%nat) →
  sum_list_with f (pool c) = 0%nat.
Proof.
  intros HI Hfin Hf.
  assert (∀ i th, pool c !! i = Some th → f th = 0%nat) as Hall.
  { intros i th Hi. destruct (finished_thread c i th HI Hfin Hi). auto. }
  clear Hfin HI. induction (pool c) as [|th l IH]; simpl; [done|].
  rewrite (Hall 0%nat th) by done. rewrite IH; [done|].
  intros i th' Hi. by apply (Hall (S i)).
Qed.

Lemma free_lock_sums c :
  lock_inv self0 c → lock_owner c = None →
  sum_list_with half_done (pool c) = 0%nat.
Proof.
  intros HI Hfree.
  assert (∀ i th, pool c !! i = Some th → half_done th = 0%nat) as Hall.
  { intros i th Hi. unfold half_done.
    destruct (pc_outside_dec (at_pc th)) as [->|Hin]; [done|].
    pose proof (inv_inside _ _ HI i th Hi Hin). congruence. }
  clear HI Hfree. induction (pool c) as [|th l IH]; simpl; [done|].
  rewrite (Hall 0%nat th) by done. rewrite IH; [done|].
  intros i th' Hi. by apply (Hall (S i)).
Qed.

Lemma finished_lock_free c :
  lock_inv self0 c → finished c = true → lock_owner c = None.
Proof.
  intros HI Hfin. destruct (lock_owner c) as [i|] eqn:Hown; [|done].
  destruct (inv_owner _ _ HI i Hown) as (th & Hi & Hin).
  by destruct (finished_thread c i th HI Hfin Hi).
Qed.

(** *** Progress *)

Lemma progress c :
  lock_inv self0 c → finished c = false →
  ∃ i, (weight (thread_step i c) < weight c)%nat.
Proof.
  intros HI Hfin.
  destruct (lock_owner c) as [i|] eqn:Hown.
  - destruct (inv_owner _ _ HI i Hown) as (th & Hi & Hin). exists i.
    destruct (step_cases c i th HI Hi)
      as [(_ & Hout & _)|(th' & o' & own' & -> & Hmove)]; [done|].
    by eapply move_weight.
  - unfold finished in Hfin.
    apply not_true_iff_false in Hfin. rewrite forallb_forall in Hfin.
    assert (∃ th, th ∈ pool c ∧ thread_done th = false) as (th & Hth & Hd).
    { clear -Hfin. induction (pool c) as [|th l IH].
      - exfalso. apply Hfin. by intros ? [].
      - destruct (thread_done th) eqn:Hd; [|exists th; split; [left|done]].
        destruct IH as (th' & Hth' & Hd').
        + intros Hall. apply Hfin. intros x [<-|Hx]; auto.
        + exists th'. split; [by right|done]. }
    apply list_elem_of_lookup in Hth as [i Hi]. exists i.
    destruct (step_cases c i th HI Hi)
      as [(_ & Hout & Hblocked)|(th' & o' & own' & -> & Hmove)].
    + unfold thread_done in Hd. rewrite Hout in Hd.
      destruct Hblocked as [Hnil|]; [|done]. by rewrite Hnil in Hd.
    + by eapply move_weight.
Qed.

(** From any configuration that satisfies the invariant, some schedule
    brings every thread to its end. *)
Lemma can_finish c :
  lock_inv self0 c → ∃ sched, finished (run sched c) = true.
Proof.
  remember (weight c) as n eqn:Hn. revert c Hn.
  induction (lt_wf n) as [n _ IH]. intros c -> HI.
  destruct (finished c) eqn:Hfin; [by exists []|].
  destruct (progress c HI Hfin) as [i Hlt].
  destruct (IH _ Hlt (thread_step i c) eq_refl) as [sched Hs].
  { apply (step_keeps c i HI). }
  by exists (i :: sched).
Qed.
End lock.

(** *** The start *)

Lemma line_key_known self0 line key :
  line_key self0 line = Some key → lookup_fails (table self0) line = false.
Proof.
  unfold line_key, lookup_fails.
  destruct (enough_fields line) eqn:Hlen; [|done]. simpl.
  rewrite record_key_eq by done.
  destruct (Py.int (field line V2_PROTO_NUM_IDX)) as [n|]; [|done].
  destruct (table self0 !! n); [|done].
  intros _. by apply bool_decide_eq_false.
Qed.

Lemma start_lookup self0 work i th :
  pool (start self0 work) !! i = Some th →
  ∃ calls, work !! i = Some calls ∧ at_pc th = Outside
           ∧ lines_left th = [] ∧ calls_left th = calls.
Proof.
  simpl. rewrite list_lookup_fmap.
  destruct (work !! i) as [calls|]; [|done]. intros [= <-]. eauto.
Qed.

Lemma start_lock_inv self0 work :
  (∀ calls line, calls ∈ work → line ∈ concat calls →
                 lookup_fails (table self0) line = false) →
  lock_inv self0 (start self0 work).
Proof.
  intros Hknown. split.
  - done.
  - done.
  - intros i th (calls & _ & Hout & _)%start_lookup Hin. done.
  - done.
  - intros i th (calls & _ & Hout & Hls & _)%start_lookup.
    unfold pc_ok. by rewrite Hout.
  - intros i th line (calls & Hi & _ & Hls & Hcs)%start_lookup.
    unfold todo. rewrite Hls, Hcs. simpl.
    apply Hknown. by eapply list_elem_of_lookup_2.
Qed.

Lemma start_pending p self0 work :
  pending p (start self0 work) = count_lines p (concat (concat work)).
Proof.
  unfold pending. simpl. induction work as [|calls work IH]; simpl; [done|].
  rewrite IH. unfold todo. simpl. by rewrite concat_app, count_lines_app.
Qed.

Lemma start_paired self0 work :
  Py.total (tag_count self0) = Py.total (combinations_count self0) →
  paired (start self0 work).
Proof.
  intros Heq. unfold paired. simpl. rewrite Heq.
  assert (sum_list_with half_done
            (map (λ calls, {| at_pc := Outside; lines_left := [];
                              calls_left := calls |}) work) = 0%nat) as ->; [|lia].
  induction work as [|calls work IH]; simpl; [done|]. by rewrite IH.
Qed.

(** *** Callers with one key each *)

Lemma count_one_key self0 k k0 lines :
  (∀ line, line ∈ lines → line_key self0 line = Some k0) →
  count_lines (has_key self0 k) lines
  = (if decide (k0 = k) then length lines else 0%nat)
  ∧ count_lines (has_some_key self0) lines = length lines.
Proof.
  induction lines as [|line lines IH]; intros Hall.
  - unfold count_lines. simpl. by destruct (decide (k0 = k)).
  - destruct IH as [IH1 IH2]; [intros l Hl; apply Hall; by right|].
    assert (line_key self0 line = Some k0) as Hk by (apply Hall; left).
    rewrite !count_lines_cons, IH1, IH2, (has_key_eq self0 k line k0 Hk),
      has_some_key_eq, Hk.
    simpl. by destruct (decide (k0 = k)).
Qed.

Lemma count_callers self0 M keys work k :
  NoDup keys → Forall2 (caller_of self0 M) keys work →
  count_lines (has_key self0 k) (concat (concat work))
  = (if decide (k ∈ keys) then M else 0%nat)
  ∧ count_lines (has_some_key self0) (concat (concat work))
    = (length keys * M)%nat.
Proof.
  intros Hnd Hall. induction Hall as [|k0 calls keys work [Hlen Hk] _ IH].
  - unfold count_lines. simpl. split; [|done].
    by destruct (decide (k ∈ [])) as [?%elem_of_nil|].
  - apply NoDup_cons in Hnd as [Hk0 Hnd]. destruct (IH Hnd) as [IH1 IH2].
    simpl. rewrite concat_app, !count_lines_app, IH1, IH2.
    destruct (count_one_key self0 k k0 (concat calls) Hk) as [-> ->].
    rewrite Hlen. split; [|lia].
    destruct (decide (k ∈ keys)) as [Hin|Hnin],
      (decide (k ∈ k0 :: keys)) as [Hin'|Hnin'],
      (decide (k0 = k)) as [Heq|Hne]; subst; try done; try lia;
      exfalso;
      try (by apply Hnin'; (left + right));
      try (by apply elem_of_cons in Hin' as [?|?]; subst).
Qed.

(** The steps are fine enough to lose an update: were two threads inside
    the block at once, stepping in turn, the record they both count would
    be counted once. *)
Lemma without_exclusion_an_update_is_lost :
  let c := run (concat (replicate 6 [0; 1]))%nat two_inside in
  finished c = true
  ∧ combinations_count (obj c) !! (49153, "tcp") = Some 1%nat
  ∧ tag_count (obj c) !! "sv_P1" = Some 1%nat.
Proof. vm_compute. done. Qed.

(** * The claims *)

(** ** C1 *)

(** C1, as stated, fails: the only line of the log has fourteen fields and
    a numeric port and protocol, so it passes validation in the claim's
    sense, yet protocol 17 is not in the table and nothing is counted. *)
Lemma combinations_total_counterexample :
  text_files udp_world !! default "" (flowlogs flp) = Some [line_udp]
  ∧ spec_passes_validation line_udp = true
  ∧ Py.total (combinations_count flp) = 0%nat
  ∧ Py.total (combinations_count (analyze_flow_logs udp_world flp).1.1)
    ≠ count_lines spec_passes_validation [line_udp].
Proof. vm_compute. repeat split; discriminate. Qed.

(** C1, amended: whatever the run, the streaming stage adds to the sum of
    all combination counts at most the number of lines that have at least
    14 fields, a numeric port field and a numeric protocol field whose
    number is in the protocol table; and in every run whose lines never
    reach the table with a number it lacks, it adds exactly the number of
    lines with at least 14 fields and a numeric port and protocol
    field. *)
Theorem combinations_total_counts_validated_lines w self lines :
  Py.truthy (flowlogs self) = true →
  text_files w !! default "" (flowlogs self) = Some lines →
  let self' := (analyze_flow_logs w self).1.1 in
  (Py.total (combinations_count self')
   ≤ Py.total (combinations_count self)
     + count_lines
         (λ line, spec_passes_validation line
                  && negb (lookup_fails (table self) line)) lines)%nat
  ∧ ((∀ line, line ∈ lines → lookup_fails (table self) line = false) →
     Py.total (combinations_count self')
     = (Py.total (combinations_count self)
        + count_lines spec_passes_validation lines)%nat).
Proof.
  intros Hlogs Hfile. unfold analyze_flow_logs.
  rewrite Hlogs, Hfile. simpl. split.
  - pose proof (submit_all_total_bound self (chunks lines)) as Hle.
    rewrite chunks_concat in Hle.
    assert (count_lines (has_some_key self) lines
            = count_lines
                (λ line, spec_passes_validation line
                         && negb (lookup_fails (table self) line)) lines) as <-;
      [|done].
    unfold count_lines. f_equal. apply List.filter_ext.
    intros line. apply has_some_key_validated.
  - intros Hok.
    destruct (submit_all_no_failure self (chunks lines)) as [_ ->];
      by rewrite chunks_concat.
Qed.

Lemma combinations_total_counts_validated_lines_witness :
  Py.total (combinations_count (analyze_flow_logs test_world flp).1.1)
  = (Py.total (combinations_count flp)
     + count_lines spec_passes_validation test_lines)%nat.
Proof.
  apply (combinations_total_counts_validated_lines test_world flp test_lines);
    [reflexivity | reflexivity |].
  intros line Hl. unfold test_lines in Hl.
  repeat (apply elem_of_cons in Hl as [->|Hl]; [vm_compute; reflexivity|]).
  by apply elem_of_nil in Hl.
Defined.

(** ** C2 *)

(** C2 at its failing input: a line whose protocol number (17) is missing
    from the table, followed by a valid line.  The [KeyError] of the first
    line is not among the exceptions the loop catches: it leaves
    [_analyze_flow_logs], the error counter is not incremented, and the
    valid line behind it is never read; the run ends with nothing
    counted. *)
Theorem unknown_protocol_escapes_the_loop :
  _analyze_flow_logs flp [line_udp; line_49153] = (flp, Some KeyError)
  ∧ errors (submit_all flp (chunks [line_udp; line_49153])) = errors flp
  ∧ combinations_count (submit_all flp (chunks [line_udp; line_49153])) = ∅.
Proof. vm_compute. done. Qed.

(** The two violations that the loop does absorb. *)
Lemma short_line_counts_an_error self line :
  enough_fields line = false →
  analyze_line self line = Ok (set_errors (errors self + 1) self).
Proof. intros H. by rewrite analyze_line_eq, H. Qed.

Lemma bad_protocol_counts_an_error self line :
  is_numeric (field line V2_PROTO_NUM_IDX) = false →
  analyze_line self line = Ok (set_errors (errors self + 1) self).
Proof.
  intros H%is_numeric_Raise. rewrite analyze_line_eq, H.
  by destruct (enough_fields line).
Qed.

(** ** C3 *)

(** C3: for a lower-case [name], a record whose port is [port] and whose
    protocol resolves to [name], letter case apart, is counted under the
    tag [tag_map] holds at exactly [(port, name)], and under ["Untagged"]
    when [tag_map] holds nothing there, whatever else [tag_map]
    contains. *)
Theorem tag_lookup_is_exact self line port name num table_name :
  Py.lower name = name →
  enough_fields line = true →
  Py.int (field line V2_DST_PORT_IDX) = Ok port →
  Py.int (field line V2_PROTO_NUM_IDX) = Ok num →
  table self !! num = Some table_name →
  Py.lower table_name = Py.lower name →
  ∃ self', analyze_line self line = Ok self'
    ∧ (∀ tag, tag_map self !! (port, name) = Some tag →
         tag_count self' = Py.incr tag (tag_count self)
         ∧ tag_count self' !! tag = Some (S (default 0%nat (tag_count self !! tag))))
    ∧ (tag_map self !! (port, name) = None →
         tag_count self' = Py.incr Untagged (tag_count self)
         ∧ tag_count self' !! Untagged
           = Some (S (default 0%nat (tag_count self !! Untagged)))).
Proof.
  intros Hlow Hlen Hport Hnum Htab Hname.
  exists (record (port, name) self).
  rewrite analyze_line_eq, Hlen, Hnum, Htab, Hport, Hname, Hlow.
  split; [done|]. rewrite record_tag_count. unfold resolve_tag, Py.incr.
  split.
  - intros tag ->. simpl. by rewrite lookup_insert_eq.
  - intros ->. simpl. by rewrite lookup_insert_eq.
Qed.

Lemma tag_lookup_is_exact_witness :
  let self := set_table {[ 6 := "TCP" ]} flp in
  ∃ self', analyze_line self line_49153 = Ok self'
    ∧ (∀ tag, tag_map self !! (49153, "tcp") = Some tag →
         tag_count self' = Py.incr tag (tag_count self)
         ∧ tag_count self' !! tag = Some (S (default 0%nat (tag_count self !! tag))))
    ∧ (tag_map self !! (49153, "tcp") = None →
         tag_count self' = Py.incr Untagged (tag_count self)
         ∧ tag_count self' !! Untagged
           = Some (S (default 0%nat (tag_count self !! Untagged)))).
Proof.
  apply (tag_lookup_is_exact (set_table {[ 6 := "TCP" ]} flp)
           line_49153 49153 "tcp" 6 "TCP");
    vm_compute; reflexivity.
Defined.

(** ** C4 *)

(** C4 at its failing input: a table with the unassigned range
    ["146-252"] between numeric rows.  The [try] encloses the whole loop,
    so the [ValueError] of that row ends the loading: rows 253 and 254,
    whose first column is a plain integer, are not loaded. *)
Theorem proto_rows_after_a_range_are_lost :
  ProtoMappings.process iana_world "protocol-numbers.csv"
    = Ok [(6, "tcp"); (17, "udp")]
  ∧ let fl := (read_proto_mappings iana_world
                 (init 2 None None None (Some "protocol-numbers.csv"))).1 in
    table fl !! 17 = Some "udp" ∧ table fl !! 253 = None ∧ table fl !! 254 = None.
Proof. vm_compute. done. Qed.

(** ** C5 *)

(** C5: with the two [sv_P1] mappings and protocol 6 named [tcp], a batch
    made, in any order, of one record for each mapped pair, one record
    whose pair is not mapped and one empty line adds exactly one error,
    leaves [tag_count] with the two entries [sv_P1 = 2] and
    [Untagged = 1], and leaves [combinations_count] with three entries of
    count 1. *)
Theorem mixed_batch_counts self la lb lc port num name lines :
  tag_map self !! (49153, "tcp") = Some "sv_P1" →
  tag_map self !! (49154, "tcp") = Some "sv_P1" →
  table self !! 6 = Some "tcp" →
  tag_count self = ∅ →
  combinations_count self = ∅ →
  is_record la 49153 6 →
  is_record lb 49154 6 →
  is_record lc port num →
  table self !! num = Some name →
  tag_map self !! (port, Py.lower name) = None →
  lines ≡ₚ [la; lb; lc; ""] →
  ∃ self',
    _analyze_flow_logs self lines = (self', None)
    ∧ errors self' = (errors self + 1)%nat
    ∧ size (tag_count self') = 2%nat
    ∧ tag_count self' !! "sv_P1" = Some 2%nat
    ∧ tag_count self' !! "Untagged" = Some 1%nat
    ∧ size (combinations_count self') = 3%nat
    ∧ combinations_count self' !! (49153, "tcp") = Some 1%nat
    ∧ combinations_count self' !! (49154, "tcp") = Some 1%nat
    ∧ combinations_count self' !! (port, Py.lower name) = Some 1%nat.
Proof.
  intros Hma Hmb Htcp Htc Hcc Hla Hlb Hlc Hnum Hmc Hperm.
  pose proof (line_key_record self la _ _ _ Hla Htcp) as Ka.
  pose proof (line_key_record self lb _ _ _ Hlb Htcp) as Kb.
  pose proof (line_key_record self lc _ _ _ Hlc Hnum) as Kc.
  change (Py.lower "tcp") with "tcp" in Ka, Kb.
  assert ((port, Py.lower name) ≠ (49153, "tcp")) as Hca by congruence.
  assert ((port, Py.lower name) ≠ (49154, "tcp")) as Hcb by congruence.
  assert (∀ l, l ∈ [la; lb; lc; ""] → lookup_fails (table self) l = false)
    as Hok.
  { intros l Hl.
    apply elem_of_cons in Hl as [->|Hl]; [eauto using lookup_fails_record|].
    apply elem_of_cons in Hl as [->|Hl]; [eauto using lookup_fails_record|].
    apply elem_of_cons in Hl as [->|Hl]; [eauto using lookup_fails_record|].
    apply elem_of_cons in Hl as [->|Hl]; [reflexivity|].
    by apply elem_of_nil in Hl. }
  eexists. split.
  { rewrite (batch_permutation self lines [la; lb; lc; ""] Hperm Hok).
    by rewrite (batch_effects self self). }
  simpl. unfold line_effect. rewrite Ka, Kb, Kc.
  change (line_key self "") with (@None (Z * string)).
  cbn [set_errors errors tag_count combinations_count].
  rewrite !record_errors, !record_tag_count, !record_combinations_count,
    !record_tag_map, Htc, Hcc.
  unfold resolve_tag. rewrite Hma, Hmb, Hmc. simpl.
  split; [done|].
  split; [vm_compute; reflexivity|].
  split; [vm_compute; reflexivity|].
  split; [vm_compute; reflexivity|].
  assert ((49153, "tcp") ≠ (port, Py.lower name)) as Hac by congruence.
  assert ((49154, "tcp") ≠ (port, Py.lower name)) as Hbc by congruence.
  assert ((49153, "tcp") ≠ ((49154, "tcp") : Z * string)) as Hab by (by intros [=]).
  assert (Py.incr (port, Py.lower name)
            (Py.incr (49154, "tcp") (Py.incr (49153, "tcp") ∅))
          = <[(port, Py.lower name) := 1%nat]>
              (<[(49154, "tcp") := 1%nat]>
                 (<[(49153, "tcp") := 1%nat]> (∅ : gmap (Z * string) nat))))
    as ->.
  { unfold Py.incr.
    by rewrite !lookup_insert_ne, !lookup_empty by done. }
  split.
  { rewrite !map_size_insert_None, map_size_empty; [done|..].
    - done.
    - by rewrite lookup_insert_ne.
    - by rewrite !lookup_insert_ne. }
  split; [by rewrite !lookup_insert_ne, lookup_insert_eq by done|].
  split; [by rewrite lookup_insert_ne, lookup_insert_eq by done|].
  by rewrite lookup_insert_eq.
Qed.

Lemma mixed_batch_counts_witness :
  ∃ self',
    _analyze_flow_logs flp test_lines = (self', None)
    ∧ errors self' = (errors flp + 1)%nat
    ∧ size (tag_count self') = 2%nat
    ∧ tag_count self' !! "sv_P1" = Some 2%nat
    ∧ tag_count self' !! "Untagged" = Some 1%nat
    ∧ size (combinations_count self') = 3%nat
    ∧ combinations_count self' !! (49153, "tcp") = Some 1%nat
    ∧ combinations_count self' !! (49154, "tcp") = Some 1%nat
    ∧ combinations_count self' !! (49155, Py.lower "tcp") = Some 1%nat.
Proof.
  apply (mixed_batch_counts flp line_49153 line_49154 line_49155 49155 6 "tcp");
    try (vm_compute; reflexivity);
    try (repeat split; vm_compute; reflexivity).
  unfold test_lines. do 2 apply perm_skip. apply perm_swap.
Defined.

(** ** C6 *)

(** C6, as stated, fails: the port field ["-1"] is a signed integer, and
    the line is counted, under port [-1], without touching the error
    counter. *)
Lemma signed_port_counterexample :
  enough_fields line_signed_port = true
  ∧ field line_signed_port V2_DST_PORT_IDX = "-1"
  ∧ errors (_analyze_flow_logs flp [line_signed_port]).1 = errors flp
  ∧ combinations_count (_analyze_flow_logs flp [line_signed_port]).1
      !! (-1, "tcp") = Some 1%nat.
Proof. vm_compute. done. Qed.

(** C6, amended: a line with at least 14 fields is counted only if its
    port and protocol fields both parse as integers, sign allowed; and
    when they do, and the protocol number is in the table, the line is
    counted under the parsed port, negative or not, and is no error. *)
Theorem counted_iff_fields_parse self line :
  enough_fields line = true →
  (∀ self', analyze_line self line = Ok self' →
     combinations_count self' ≠ combinations_count self →
     ∃ port num, Py.int (field line V2_DST_PORT_IDX) = Ok port
                 ∧ Py.int (field line V2_PROTO_NUM_IDX) = Ok num)
  ∧ (∀ port num name,
       Py.int (field line V2_DST_PORT_IDX) = Ok port →
       Py.int (field line V2_PROTO_NUM_IDX) = Ok num →
       table self !! num = Some name →
       ∃ self', analyze_line self line = Ok self'
         ∧ errors self' = errors self
         ∧ combinations_count self'
           = Py.incr (port, Py.lower name) (combinations_count self)).
Proof.
  intros Hlen. split.
  - intros self'. rewrite analyze_line_eq, Hlen.
    destruct (Py.int (field line V2_PROTO_NUM_IDX)) as [num|];
      [|by intros [= <-]].
    destruct (table self !! num); [|done].
    destruct (Py.int (field line V2_DST_PORT_IDX)) as [port|];
      [eauto | by intros [= <-]].
  - intros port num name Hport Hnum Htab.
    exists (record (port, Py.lower name) self).
    rewrite analyze_line_eq, Hlen, Hnum, Htab, Hport.
    by rewrite record_errors, record_combinations_count.
Qed.

Lemma counted_iff_fields_parse_witness :
  ∃ self', analyze_line flp line_signed_port = Ok self'
    ∧ errors self' = errors flp
    ∧ combinations_count self'
      = Py.incr (-1, Py.lower "tcp") (combinations_count flp).
Proof.
  destruct (counted_iff_fields_parse flp line_signed_port) as [_ H].
  - vm_compute; reflexivity.
  - apply (H (-1) 6 "tcp"); vm_compute; reflexivity.
Defined.

(** ** C7 *)

(** C7, as stated, fails: with no input path and an output path, the run
    ends normally and no report has been written: the report is written
    at the end of [analyze_flow_logs], behind its early return. *)
Lemma no_input_counterexample :
  let r := main test_world 2 None None (Some "output.txt") None in
  r.2 = None ∧ written r.1.2 !! "output.txt" = None.
Proof. vm_compute. done. Qed.

(** C7, amended: with no tag-mapping path the tag map stays empty and only
    ["Untagged"] is counted; with no output path the run writes nothing;
    with no input path the streaming stage is skipped and, with it, the
    report, while the two tables are loaded as the loading stages load
    them. *)
Theorem absent_paths_skip_stages w version logs mappings output pmf :
  let fl0 := init version logs mappings output pmf in
  let fl := (main w version logs mappings output pmf).1.1 in
  let w' := (main w version logs mappings output pmf).1.2 in
  (Py.truthy mappings = false →
     tag_map fl = ∅ ∧ ∀ tag, tag ≠ Untagged → tag_count fl !! tag = None)
  ∧ (Py.truthy output = false → w' = w)
  ∧ (Py.truthy logs = false →
       w' = w
       ∧ tag_count fl = ∅ ∧ combinations_count fl = ∅ ∧ errors fl = 0%nat
       ∧ tag_map fl = tag_map (read_mappings_file w fl0).1
       ∧ ((read_mappings_file w fl0).2 = None →
          table fl = table (read_proto_mappings w (read_mappings_file w fl0).1).1)).
Proof.
  intros fl0 fl w'. subst fl w'. rewrite main_parser, main_world. fold fl0.
  split; [|split].
  - intros Hmap. apply only_untagged_main_stages; [|done].
    by apply read_mappings_file_absent.
  - intros Hout. unfold main_stages.
    destruct (read_mappings_file_same w fl0) as [(_ & Ho1 & _) _].
    destruct (read_mappings_file w fl0) as [fl1 [e1|]]; [done|].
    destruct (read_proto_mappings_same w fl1) as [(_ & Ho2 & _) _].
    destruct (read_proto_mappings w fl1) as [fl2 [e2|]]; [done|].
    simpl in *. apply analyze_flow_logs_no_output. by rewrite Ho2, Ho1.
  - intros Hlogs. unfold main_stages.
    destruct (read_mappings_file_same w fl0)
      as [(Hl1 & _ & _ & Ht1 & Hc1 & He1) Htb1].
    destruct (read_mappings_file w fl0) as [fl1 [e1|]]; simpl in *.
    { rewrite Ht1, Hc1, He1. by repeat split. }
    destruct (read_proto_mappings_same w fl1)
      as [(Hl2 & _ & _ & Ht2 & Hc2 & He2) Htm2].
    destruct (read_proto_mappings w fl1) as [fl2 [e2|]]; simpl in *.
    { rewrite Ht2, Hc2, He2, Ht1, Hc1, He1. by repeat split. }
    rewrite analyze_flow_logs_absent by by rewrite Hl2, Hl1.
    simpl. rewrite Ht2, Hc2, He2, Ht1, Hc1, He1. by repeat split.
Qed.

Lemma absent_paths_skip_stages_witness :
  let fl := (main iana_world 2 None None None
               (Some "protocol-numbers.csv")).1.1 in
  let w' := (main iana_world 2 None None None
               (Some "protocol-numbers.csv")).1.2 in
  (tag_map fl = ∅ ∧ ∀ tag, tag ≠ Untagged → tag_count fl !! tag = None)
  ∧ w' = iana_world
  ∧ table fl !! 6 = Some "tcp".
Proof.
  destruct (absent_paths_skip_stages iana_world 2 None None None
              (Some "protocol-numbers.csv")) as (H1 & H2 & H3).
  split; [apply H1; reflexivity|]. split; [apply H2; reflexivity|].
  destruct H3 as (_ & _ & _ & _ & _ & H3); [reflexivity|].
  rewrite H3; reflexivity.
Defined.

(** ** C8 *)

(** C8: [N] callers run [_analyze_flow_logs] concurrently on one parser
    with fresh counters; caller [i] submits, in any number of batches, [M]
    lines that are records with key [keys !! i], the keys being pairwise
    distinct.  Then, for every interleaving of the callers' steps:
    - the interleaving can be continued until every caller is done;
    - two callers are never inside the locked block at once;
    - whenever the lock is free, the values of [tag_count] and of
      [combinations_count] sum to the same number: no record is seen with
      one of its two updates only;
    - once every caller is done, each key has count [M], and both
      dictionaries have received [N * M] increments. *)
Theorem concurrent_callers_lose_no_update self0 N M keys work :
  length keys = N →
  NoDup keys →
  Forall2 (caller_of self0 M) keys work →
  tag_count self0 = ∅ →
  combinations_count self0 = ∅ →
  let c0 := start self0 work in
  (∀ sched, ∃ more, finished (run (sched ++ more) c0) = true)
  ∧ (∀ sched i j thi thj,
       pool (run sched c0) !! i = Some thi →
       pool (run sched c0) !! j = Some thj →
       at_pc thi ≠ Outside → at_pc thj ≠ Outside → i = j)
  ∧ (∀ sched,
       lock_owner (run sched c0) = None →
       Py.total (tag_count (obj (run sched c0)))
       = Py.total (combinations_count (obj (run sched c0))))
  ∧ (∀ sched,
       finished (run sched c0) = true →
       (∀ k, k ∈ keys →
          default 0%nat (combinations_count (obj (run sched c0)) !! k) = M)
       ∧ Py.total (combinations_count (obj (run sched c0))) = (N * M)%nat
       ∧ Py.total (tag_count (obj (run sched c0))) = (N * M)%nat).
Proof.
  intros HN Hnd Hwork Htc Hcc c0. subst c0.
  assert (lock_inv self0 (start self0 work)) as Hstart.
  { apply start_lock_inv. intros calls line Hcalls Hline.
    apply list_elem_of_lookup in Hcalls as [i Hi].
    destruct (Forall2_lookup_r _ _ _ _ _ Hwork Hi) as (k & _ & _ & Hk).
    by eapply line_key_known, Hk. }
  assert (paired (start self0 work)) as Hpair.
  { apply start_paired. by rewrite Htc, Hcc. }
  assert (∀ sched, lock_owner (run sched (start self0 work)) = None →
            Py.total (tag_count (obj (run sched (start self0 work))))
            = Py.total (combinations_count (obj (run sched (start self0 work))))) as Hfree.
  { intros sched Hown.
    destruct (run_keeps self0 sched (start self0 work) Hstart) as (HI & _ & _ & HP).
    rewrite (HP Hpair), (free_lock_sums self0 _ HI Hown). lia. }
  split; [|split; [|split]].
  - intros sched. destruct (run_keeps self0 sched (start self0 work) Hstart) as (HI & _).
    destruct (can_finish self0 _ HI) as [more Hmore].
    exists more. by rewrite run_app.
  - intros sched i j thi thj Hi Hj Hini Hinj.
    destruct (run_keeps self0 sched (start self0 work) Hstart) as (HI & _).
    pose proof (inv_inside _ _ HI i thi Hi Hini).
    pose proof (inv_inside _ _ HI j thj Hj Hinj). congruence.
  - done.
  - intros sched Hfin.
    destruct (run_keeps self0 sched (start self0 work) Hstart) as (HI & Hk & Ht & _).
    assert (∀ p, pending p (run sched (start self0 work)) = 0%nat) as Hdone.
    { intros p. apply (finished_sums self0 _ _ HI Hfin).
      by intros th _ ->. }
    assert (Py.total (combinations_count (obj (run sched (start self0 work)))) = (N * M)%nat)
      as Htotal.
    { unfold credit_total in Ht. rewrite Hdone, start_pending in Ht.
      destruct (count_callers self0 M keys work (0, "") Hnd Hwork) as [_ Hc].
      rewrite Hc in Ht. simpl in Ht. rewrite Hcc in Ht.
      unfold Py.total in Ht at 2. rewrite map_fold_empty in Ht. lia. }
    split; [|split; [done|]].
    + intros k Hin. specialize (Hk k). unfold credit in Hk.
      rewrite Hdone, start_pending in Hk.
      destruct (count_callers self0 M keys work k Hnd Hwork) as [Hc _].
      rewrite Hc, decide_True in Hk by done.
      simpl in Hk. rewrite Hcc, lookup_empty in Hk. simpl in Hk. lia.
    + rewrite Hfree; [done|]. by apply (finished_lock_free self0).
Qed.

Lemma concurrent_callers_lose_no_update_witness :
  let c := run sample_schedule (start flp two_callers) in
  (∀ k, k ∈ two_keys → default 0%nat (combinations_count (obj c) !! k) = 2%nat)
  ∧ Py.total (combinations_count (obj c)) = (2 * 2)%nat
  ∧ Py.total (tag_count (obj c)) = (2 * 2)%nat.
Proof.
  destruct (concurrent_callers_lose_no_update flp 2 2 two_keys two_callers)
    as (_ & _ & _ & H).
  - reflexivity.
  - unfold two_keys. apply NoDup_cons. split.
    + intros [[=]|[]%elem_of_nil]%elem_of_cons.
    + apply NoDup_singleton.
  - unfold two_keys, two_callers.
    constructor; [|constructor; [|constructor]].
    + split; [reflexivity|]. intros line Hl. simpl in Hl.
      repeat (apply elem_of_cons in Hl as [->|Hl]; [vm_compute; reflexivity|]).
      by apply elem_of_nil in Hl.
    + split; [reflexivity|]. intros line Hl. simpl in Hl.
      repeat (apply elem_of_cons in Hl as [->|Hl]; [vm_compute; reflexivity|]).
      by apply elem_of_nil in Hl.
  - reflexivity.
  - reflexivity.
  - apply (H sample_schedule). vm_compute. reflexivity.
Defined.

(** ** C9 *)

(** C9: after any run, and after any batch started from equal sums, the
    values of [tag_count] and of [combinations_count] sum to the same
    number; an iteration of the loop either leaves both dictionaries alone
    or adds one to one entry of each. *)
Theorem tag_total_equals_combinations_total :
  (∀ w version logs mappings output pmf,
     let fl := (main w version logs mappings output pmf).1.1 in
     Py.total (tag_count fl) = Py.total (combinations_count fl))
  ∧ (∀ self lines,
       Py.total (tag_count self) = Py.total (combinations_count self) →
       let self' := (_analyze_flow_logs self lines).1 in
       Py.total (tag_count self') = Py.total (combinations_count self'))
  ∧ (∀ self line self',
       analyze_line self line = Ok self' →
       (tag_count self' = tag_count self
        ∧ combinations_count self' = combinations_count self)
       ∨ ∃ tag key,
           tag_count self' = Py.incr tag (tag_count self)
           ∧ combinations_count self' = Py.incr key (combinations_count self)).
Proof.
  assert (∀ s line s',
            Py.total (tag_count s) = Py.total (combinations_count s) →
            analyze_line s line = Ok s' →
            Py.total (tag_count s') = Py.total (combinations_count s')) as Hstep.
  { intros s line s' Hs [[key ->]| ->]%analyze_line_Ok; [|done].
    by rewrite record_tag_count, record_combinations_count, !total_incr, Hs. }
  split; [|split].
  - intros. subst fl. rewrite main_parser.
    by apply (main_stages_invariant
                (λ s, Py.total (tag_count s) = Py.total (combinations_count s))).
  - intros self lines Hs. simpl. unfold _analyze_flow_logs.
    by apply (for_in_invariant
                (λ s, Py.total (tag_count s) = Py.total (combinations_count s))
                analyze_line).
  - intros self line self' [[key ->]| ->]%analyze_line_Ok; [right | by left].
    exists (resolve_tag (tag_map self) key), key.
    by rewrite record_tag_count, record_combinations_count.
Qed.

Lemma tag_total_equals_combinations_total_witness :
  Py.total (tag_count (_analyze_flow_logs flp test_lines).1)
  = Py.total (combinations_count (_analyze_flow_logs flp test_lines).1).
Proof.
  destruct tag_total_equals_combinations_total as (_ & H & _).
  apply (H flp test_lines). vm_compute. reflexivity.
Defined.

(** ** C10 *)

(** C10: a tag-mapping or protocol-mapping path that cannot be opened
    loads as an empty file: the loading stage returns without an
    exception and leaves the table as the constructor made it, empty; and
    in a run with such a tag-mapping path no tag but ["Untagged"] is ever
    counted.  More: whatever the arguments of the run, it ends with the
    same parser, the same reports and the same exception, if any, as in
    the world where the path is a readable, empty file. *)
Theorem unreadable_mapping_file_loads_empty w version logs output path :
  Py.truthy (Some path) = true →
  csv_files w !! path = None →
  (∀ pmf,
     let fl := init version logs (Some path) output pmf in
     read_mappings_file w fl = (fl, None) ∧ tag_map fl = ∅)
  ∧ (∀ mappings,
       let fl := init version logs mappings output (Some path) in
       read_proto_mappings w fl = (fl, None) ∧ table fl = ∅)
  ∧ (∀ pmf,
       let fl := (main w version logs (Some path) output pmf).1.1 in
       tag_map fl = ∅ ∧ ∀ tag, tag ≠ Untagged → tag_count fl !! tag = None)
  ∧ (∀ mappings pmf,
       let r := main w version logs mappings output pmf in
       let r' := main (with_empty_csv path w) version logs mappings output pmf in
       r'.1.1 = r.1.1 ∧ r'.2 = r.2 ∧ written r'.1.2 = written r.1.2).
Proof.
  intros Hpath Hfile.
  assert (∀ pmf, read_mappings_file w (init version logs (Some path) output pmf)
                 = (init version logs (Some path) output pmf, None)) as Hread.
  { intros pmf. unfold read_mappings_file, TagMappings.process. simpl mapfile.
    rewrite Hpath. simpl. by rewrite read_csv_file_unreadable. }
  split; [|split; [|split]].
  - intros pmf. simpl. by rewrite Hread.
  - intros mappings. simpl. split; [|done].
    unfold read_proto_mappings, ProtoMappings.process. simpl proto_map_file.
    rewrite Hpath. simpl. by rewrite read_csv_file_unreadable.
  - intros pmf. simpl. rewrite main_parser.
    apply only_untagged_main_stages; [apply Hread | done].
  - intros mappings pmf. cbv zeta. by rewrite (main_empty w path Hfile).
Qed.

Lemma unreadable_mapping_file_loads_empty_witness :
  let fl := (main test_world 2 (Some "dummy") (Some "missing.csv") None None).1.1 in
  tag_map fl = ∅ ∧ ∀ tag, tag ≠ Untagged → tag_count fl !! tag = None.
Proof.
  destruct (unreadable_mapping_file_loads_empty
              test_world 2 (Some "dummy") None "missing.csv") as (_ & _ & H & _).
  - reflexivity.
  - reflexivity.
  - apply (H None).
Defined.

(** * Further properties of the code *)

(** ** Batches of bounded size *)

Lemma chunks_fuel_shape fuel lines :
  (length lines ≤ fuel)%nat →
  Forall (λ b, b ≠ [] ∧ (length b ≤ CHUNK_SIZE)%nat) (chunks_fuel fuel lines)
  ∧ ∀ i b, chunks_fuel fuel lines !! i = Some b →
           (S i < length (chunks_fuel fuel lines))%nat →
           length b = CHUNK_SIZE.
Proof.
  revert lines. induction fuel as [|fuel IH]; intros lines Hlen.
  { split; [constructor | by intros ?? [=]]. }
  destruct lines as [|l lines]; [split; [constructor | by intros ?? [=]]|].
  cbn [chunks_fuel].
  destruct (IH (drop CHUNK_SIZE (l :: lines))) as [IH1 IH2].
  { rewrite length_drop. cbn [length] in *. unfold CHUNK_SIZE. lia. }
  split.
  - constructor; [|done]. split.
    + unfold CHUNK_SIZE. by rewrite firstn_cons.
    + rewrite length_take. lia.
  - assert (chunks_fuel fuel (drop CHUNK_SIZE (l :: lines)) ≠ [] →
            length (take CHUNK_SIZE (l :: lines)) = CHUNK_SIZE) as Hfull.
    { intros Hne. rewrite length_take.
      destruct (decide (CHUNK_SIZE ≤ length (l :: lines))%nat); [lia|].
      rewrite drop_ge in Hne by lia. by destruct fuel. }
    remember (take CHUNK_SIZE (l :: lines)) as b0.
    remember (chunks_fuel fuel (drop CHUNK_SIZE (l :: lines))) as rest.
    intros [|i] b Hb Hi; simpl in *.
    + injection Hb as <-. apply Hfull. destruct rest; [simpl in Hi; lia | done].
    + apply (IH2 i b Hb). lia.
Qed.

(** X1: the batches handed to the worker are the lines of the file, in
    order and without loss; no batch is empty, none has more than
    [CHUNK_SIZE] lines, and every batch but the last has exactly
    [CHUNK_SIZE]. *)
Theorem chunks_partition lines :
  concat (chunks lines) = lines
  ∧ Forall (λ b, b ≠ [] ∧ (length b ≤ CHUNK_SIZE)%nat) (chunks lines)
  ∧ ∀ i b, chunks lines !! i = Some b →
           (S i < length (chunks lines))%nat → length b = CHUNK_SIZE.
Proof.
  split; [apply chunks_concat|]. by apply chunks_fuel_shape.
Qed.

Lemma chunks_partition_witness :
  length (take CHUNK_SIZE (replicate 2001 line_49153)) = CHUNK_SIZE.
Proof.
  apply (proj2 (proj2 (chunks_partition (replicate 2001 line_49153))) 0%nat).
  - vm_compute. reflexivity.
  - vm_compute. lia.
Defined.

(** ** What a batch does, failing lookup or not *)

Lemma elem_of_concat {A} (x : A) (ls : list (list A)) :
  x ∈ concat ls ↔ ∃ l, l ∈ ls ∧ x ∈ l.
Proof.
  rewrite list_elem_of_In, in_concat.
  split; intros (l & Hl & Hx); exists l; by rewrite ?list_elem_of_In in *.
Qed.

Lemma before_failure_all t lines :
  (∀ line, line ∈ lines → lookup_fails t line = false) →
  before_failure t lines = lines.
Proof.
  induction lines as [|l ls IH]; intros Hok; simpl; [done|].
  rewrite (Hok l) by left. rewrite IH; [done|]. intros ??. apply Hok. by right.
Qed.

Lemma before_failure_known t lines line :
  line ∈ before_failure t lines → lookup_fails t line = false.
Proof.
  induction lines as [|l ls IH]; simpl; [by intros ?%elem_of_nil|].
  destruct (lookup_fails t l) eqn:E; [by intros ?%elem_of_nil|].
  intros [->|?]%elem_of_cons; auto.
Qed.

Lemma batch_reaches self0 self lines :
  table self = table self0 →
  _analyze_flow_logs self lines
  = (foldl (λ s line, line_effect self0 line s) self
       (before_failure (table self0) lines),
     if existsb (lookup_fails (table self0)) lines then Some KeyError else None).
Proof.
  unfold _analyze_flow_logs. revert self.
  induction lines as [|line lines IH]; intros self Ht; simpl; [done|].
  destruct (lookup_fails (table self0) line) eqn:E; simpl.
  - rewrite lookup_failure_raises by by rewrite Ht. done.
  - rewrite (analyze_line_effect self0) by done.
    apply IH. by rewrite line_effect_table.
Qed.

Lemma effects_table self0 lines self :
  table (foldl (λ s line, line_effect self0 line s) self lines) = table self.
Proof.
  revert self. induction lines as [|l ls IH]; intros self; simpl; [done|].
  by rewrite IH, line_effect_table.
Qed.

Lemma submit_all_reaches self0 self batches :
  table self = table self0 →
  submit_all self batches
  = foldl (λ s line, line_effect self0 line s) self
      (concat (map (before_failure (table self0)) batches)).
Proof.
  unfold submit_all. revert self.
  induction batches as [|b bs IH]; intros self Ht; simpl; [done|].
  rewrite (batch_reaches self0 self b Ht). simpl.
  rewrite foldl_app. apply IH. by rewrite effects_table.
Qed.

(** X2: a batch is processed up to the first line whose protocol number
    the table lacks: the state it leaves is the composition of the
    effects of the lines before that one, and a [KeyError] leaves the
    method exactly when there is such a line.  In a run, such a line costs
    the rest of its own batch and nothing else: the batches behind it are
    processed. *)
Theorem batch_stops_at_first_failure self :
  (∀ lines,
     _analyze_flow_logs self lines
     = (foldl (λ s line, line_effect self line s) self
          (before_failure (table self) lines),
        if existsb (lookup_fails (table self)) lines
        then Some KeyError else None))
  ∧ (∀ batches,
       submit_all self batches
       = foldl (λ s line, line_effect self line s) self
           (concat (map (before_failure (table self)) batches))).
Proof.
  split; [intros; by apply batch_reaches | intros; by apply submit_all_reaches].
Qed.

Lemma submit_all_chunks_effects self lines :
  (∀ line, line ∈ lines → lookup_fails (table self) line = false) →
  submit_all self (chunks lines)
  = foldl (λ s line, line_effect self line s) self lines.
Proof.
  intros Hok. rewrite (submit_all_reaches self self) by done. f_equal.
  rewrite <- (chunks_concat lines) at 2.
  assert (∀ b, b ∈ chunks lines → before_failure (table self) b = b) as Hb.
  { intros b Hin. apply before_failure_all. intros line Hl. apply Hok.
    rewrite <- (chunks_concat lines). apply elem_of_concat. eauto. }
  induction (chunks lines) as [|b bs IH]; simpl; [done|].
  rewrite Hb by left. f_equal. apply IH. intros ??. apply Hb. by right.
Qed.

(** X3: when no line of the file misses the table, cutting the file into
    batches changes nothing: the run ends in the state one call on all
    the lines would leave. *)
Theorem batching_is_transparent self lines :
  (∀ line, line ∈ lines → lookup_fails (table self) line = false) →
  submit_all self (chunks lines) = (_analyze_flow_logs self lines).1.
Proof.
  intros Hok. rewrite submit_all_chunks_effects by done.
  rewrite (batch_reaches self self) by done. simpl.
  by rewrite before_failure_all.
Qed.

Lemma batching_is_transparent_witness :
  submit_all flp (chunks test_lines) = (_analyze_flow_logs flp test_lines).1.
Proof.
  apply (batching_is_transparent flp test_lines).
  intros line Hl. unfold test_lines in Hl.
  repeat (apply elem_of_cons in Hl as [->|Hl]; [vm_compute; reflexivity|]).
  by apply elem_of_nil in Hl.
Defined.

(** ** Exact counts *)

Lemma count_lines_length p lines :
  (count_lines p lines + count_lines (λ l, negb (p l)) lines)%nat = length lines.
Proof.
  induction lines as [|l ls IH]; [done|].
  rewrite !count_lines_cons. simpl. destruct (p l); simpl; lia.
Qed.

Lemma has_tag_eq self0 tag line key :
  line_key self0 line = Some key →
  has_tag self0 tag line
  = if decide (resolve_tag (tag_map self0) key = tag) then true else false.
Proof.
  intros Hk. unfold has_tag, line_tag. rewrite Hk. simpl.
  destruct (decide (_ = tag)) as [->|Hne].
  - by apply bool_decide_eq_true.
  - apply bool_decide_eq_false. congruence.
Qed.

Lemma has_tag_none self0 tag line :
  line_key self0 line = None → has_tag self0 tag line = false.
Proof.
  intros Hk. unfold has_tag, line_tag. rewrite Hk. by apply bool_decide_eq_false.
Qed.

Lemma effects_tag_map self0 lines self :
  tag_map (foldl (λ s line, line_effect self0 line s) self lines) = tag_map self.
Proof.
  revert self. induction lines as [|l ls IH]; intros self; simpl; [done|].
  rewrite IH. unfold line_effect.
  destruct (line_key self0 l); [apply record_tag_map | done].
Qed.

(** What the effects of a list of lines add to each counter. *)
Lemma effects_counts self0 lines self :
  tag_map self = tag_map self0 →
  let s' := foldl (λ s line, line_effect self0 line s) self lines in
  (∀ k, default 0%nat (combinations_count s' !! k)
        = (default 0 (combinations_count self !! k)
           + count_lines (has_key self0 k) lines)%nat)
  ∧ (∀ tag, default 0%nat (tag_count s' !! tag)
            = (default 0 (tag_count self !! tag)
               + count_lines (has_tag self0 tag) lines)%nat)
  ∧ errors s'
    = (errors self + count_lines (λ l, negb (has_some_key self0 l)) lines)%nat
  ∧ Py.total (combinations_count s')
    = (Py.total (combinations_count self)
       + count_lines (has_some_key self0) lines)%nat.
Proof.
  revert self. induction lines as [|line lines IH]; intros self Hm; simpl.
  { unfold count_lines. simpl. repeat split; intros; lia. }
  destruct (IH (line_effect self0 line self)) as (IHk & IHt & IHe & IHs).
  { unfold line_effect. destruct (line_key self0 line);
      [by rewrite record_tag_map | done]. }
  rewrite !count_lines_cons. unfold line_effect in *.
  destruct (line_key self0 line) as [key|] eqn:Hk.
  - split; [|split; [|split]].
    + intros k. rewrite IHk, count_lines_cons, record_combinations_count,
        incr_lookup, (has_key_eq self0 k line key Hk).
      destruct (decide (key = k)); lia.
    + intros tag. rewrite IHt, count_lines_cons, record_tag_count, incr_lookup,
        (has_tag_eq self0 tag line key Hk), Hm.
      destruct (decide (_ = tag)); lia.
    + rewrite IHe, record_errors, has_some_key_eq, Hk. simpl. lia.
    + rewrite IHs, record_combinations_count, total_incr, has_some_key_eq, Hk.
      lia.
  - split; [|split; [|split]].
    + intros k. rewrite IHk, count_lines_cons, (has_key_none self0 k line Hk).
      simpl. lia.
    + intros tag. rewrite IHt, count_lines_cons, (has_tag_none self0 tag line Hk).
      simpl. lia.
    + rewrite IHe, has_some_key_eq, Hk. simpl. lia.
    + rewrite IHs, has_some_key_eq, Hk. simpl. lia.
Qed.

(** X4: every line a batch reaches is accounted for exactly once, as a
    record or as an error: the error counter grows by the number of
    reached lines without a key, the sum of the combination counts by the
    number of reached lines with one, and the two together by the number
    of reached lines. *)
Theorem every_reached_line_is_accounted_for self lines :
  let s' := (_analyze_flow_logs self lines).1 in
  let reached := before_failure (table self) lines in
  errors s'
  = (errors self + count_lines (λ l, negb (has_some_key self l)) reached)%nat
  ∧ Py.total (combinations_count s')
    = (Py.total (combinations_count self)
       + count_lines (has_some_key self) reached)%nat
  ∧ (Py.total (combinations_count s') + errors s'
     = Py.total (combinations_count self) + errors self + length reached)%nat.
Proof.
  intros s' reached. subst s'.
  rewrite (batch_reaches self self) by done. simpl. fold reached.
  destruct (effects_counts self reached self eq_refl) as (_ & _ & He & Hs).
  split; [done|]. split; [done|].
  rewrite He, Hs. pose proof (count_lines_length (has_some_key self) reached). lia.
Qed.

(** X5: after a batch, the count of every key is its count before plus
    the number of reached lines with that key, and the count of every tag
    is its count before plus the number of reached lines whose key
    resolves to that tag. *)
Theorem counts_are_exact self lines :
  let s' := (_analyze_flow_logs self lines).1 in
  let reached := before_failure (table self) lines in
  (∀ k, default 0%nat (combinations_count s' !! k)
        = (default 0 (combinations_count self !! k)
           + count_lines (has_key self k) reached)%nat)
  ∧ (∀ tag, default 0%nat (tag_count s' !! tag)
            = (default 0 (tag_count self !! tag)
               + count_lines (has_tag self tag) reached)%nat).
Proof.
  intros s' reached. subst s'.
  rewrite (batch_reaches self self) by done. simpl. fold reached.
  destruct (effects_counts self reached self eq_refl) as (Hk & Ht & _).
  by split.
Qed.

(** ** Counters only grow *)

Lemma incr_grows `{Countable K} (k k' : K) (d : gmap K nat) v :
  d !! k' = Some v → ∃ v', Py.incr k d !! k' = Some v' ∧ (v ≤ v')%nat.
Proof.
  intros Hv. unfold Py.incr. destruct (decide (k = k')) as [->|Hne].
  - rewrite lookup_insert_eq, Hv. simpl. eexists. split; [done|lia].
  - rewrite lookup_insert_ne by done. eauto.
Qed.

Lemma grown_line s0 s line s' :
  grown s0 s → analyze_line s line = Ok s' → grown s0 s'.
Proof.
  intros (Hc & Ht & He) [[key ->]| ->]%analyze_line_Ok.
  - split; [|split].
    + intros k v (v1 & Hv1 & Hle)%Hc. rewrite record_combinations_count.
      destruct (incr_grows key k _ v1 Hv1) as (v' & ? & ?).
      exists v'. split; [done|lia].
    + intros tag v (v1 & Hv1 & Hle)%Ht. rewrite record_tag_count.
      destruct (incr_grows (resolve_tag (tag_map s) key) tag _ v1 Hv1)
        as (v' & ? & ?).
      exists v'. split; [done|lia].
    + by rewrite record_errors.
  - split; [done|]. split; [done|]. simpl. lia.
Qed.

Lemma grown_refl s : grown s s.
Proof. repeat split; eauto. Qed.

(** X6: the counters only grow: whatever the lines, and whether or not an
    exception cuts a batch short, no key or tag ever leaves a dictionary
    and no count, the error counter included, ever gets smaller. *)
Theorem counters_only_grow self :
  (∀ lines, grown self (_analyze_flow_logs self lines).1)
  ∧ (∀ w, grown self (analyze_flow_logs w self).1.1).
Proof.
  split.
  - intros lines. unfold _analyze_flow_logs.
    apply (for_in_invariant (grown self) analyze_line); [|apply grown_refl].
    intros ????. by apply grown_line.
  - intros w. apply (analyze_flow_logs_invariant (grown self)); [|apply grown_refl].
    intros ???. by apply grown_line.
Qed.

(** X7: the streaming stage reads the two tables and the configuration
    and never writes them. *)
Theorem streaming_leaves_tables_alone self :
  (∀ lines, same_tables self (_analyze_flow_logs self lines).1)
  ∧ (∀ w, same_tables self (analyze_flow_logs w self).1.1).
Proof.
  assert (∀ s line s', same_tables self s → analyze_line s line = Ok s' →
                       same_tables self s') as Hstep.
  { intros s line s' Hs [[key ->]| ->]%analyze_line_Ok; [|done].
    unfold record. by destruct (tag_map s !! key). }
  split.
  - intros lines. unfold _analyze_flow_logs.
    by apply (for_in_invariant (same_tables self) analyze_line).
  - intros w. by apply (analyze_flow_logs_invariant (same_tables self)).
Qed.

(** ** Order of the lines of a file *)

(** X8: when no line of the file misses the table, the order of the lines
    does not matter: two files with the same lines, in any order and
    hence cut into different batches, leave the same parser. *)
Theorem run_is_order_independent self l1 l2 :
  l1 ≡ₚ l2 →
  (∀ line, line ∈ l1 → lookup_fails (table self) line = false) →
  submit_all self (chunks l1) = submit_all self (chunks l2).
Proof.
  intros Hp Hok.
  assert (∀ line, line ∈ l2 → lookup_fails (table self) line = false) as Hok2.
  { intros line Hl. apply Hok. by rewrite Hp. }
  rewrite !submit_all_chunks_effects by done.
  by apply effects_permutation.
Qed.

Lemma run_is_order_independent_witness :
  submit_all flp (chunks test_lines) = submit_all flp (chunks (rev test_lines)).
Proof.
  apply (run_is_order_independent flp test_lines (rev test_lines)).
  - unfold test_lines. simpl. apply Permutation_rev.
  - intros line Hl. unfold test_lines in Hl.
    repeat (apply elem_of_cons in Hl as [->|Hl]; [vm_compute; reflexivity|]).
    by apply elem_of_nil in Hl.
Defined.

(** ** Malformed lines *)

Lemma set_errors_same self : set_errors (errors self) self = self.
Proof. by destruct self. Qed.

(** X9: a batch of lines that are all rejected (too short, or with a
    field that is not a number, and none missing the table) changes
    nothing but the error counter, which grows by the number of lines. *)
Theorem rejected_lines_only_count_errors self lines :
  (∀ line, line ∈ lines →
     line_key self line = None ∧ lookup_fails (table self) line = false) →
  _analyze_flow_logs self lines
  = (set_errors (errors self + length lines) self, None).
Proof.
  intros Hall. rewrite (batch_reaches self self) by done.
  rewrite before_failure_all by (intros ? ?; by apply Hall).
  assert (existsb (lookup_fails (table self)) lines = false) as ->.
  { apply not_true_iff_false. rewrite existsb_exists.
    intros (l & Hl%list_elem_of_In & E). destruct (Hall l Hl). congruence. }
  f_equal.
  assert (∀ s n, foldl (λ s line, line_effect self line s) (set_errors n s) lines
                 = set_errors (n + length lines) s) as H.
  { clear -Hall. induction lines as [|l ls IH]; intros s n; simpl.
    - by rewrite Nat.add_0_r.
    - unfold line_effect at 2. destruct (Hall l) as [Hk _]; [left|].
      rewrite Hk. change (errors (set_errors n s)) with n.
      assert (set_errors (n + 1) (set_errors n s) = set_errors (n + 1) s)
        as -> by done.
      rewrite IH by (intros ??; apply Hall; by right).
      f_equal. lia. }
  rewrite <- (set_errors_same self) at 1. apply H.
Qed.

Lemma rejected_lines_only_count_errors_witness :
  _analyze_flow_logs flp ["abc"; ""; line_bad_proto]
  = (set_errors (errors flp + 3) flp, None).
Proof.
  apply (rejected_lines_only_count_errors flp ["abc"; ""; line_bad_proto]).
  intros line Hl.
  repeat (apply elem_of_cons in Hl as [->|Hl]; [vm_compute; split; reflexivity|]).
  by apply elem_of_nil in Hl.
Defined.

(** ** The tag table *)

Lemma tag_row_header buff row :
  is_header row = true → TagMappings.row buff row = Ok buff.
Proof.
  destruct row as [|c row]; [done|]. simpl. unfold TagMappings.row. simpl.
  by intros ->.
Qed.

Lemma tag_row_entry buff row :
  is_header row = false →
  match tag_entry row with
  | Some e => TagMappings.row buff row = Ok (buff ++ [e])%list
  | None => TagMappings.row buff row = Raise IndexError
            ∨ TagMappings.row buff row = Raise ValueError
  end.
Proof.
  destruct row as [|c0 row]; [by left|]. simpl. intros Hh.
  unfold TagMappings.row. cbn [Py.getitem lookup list_lookup mbind result_bind
    TAGMAP_PORT_IDX TAGMAP_PROTO_IDX TAGMAP_TAG_IDX]. rewrite Hh.
  destruct row as [|c1 [|c2 row]]; simpl;
    destruct (Py.int c0) as [port|e] eqn:E; simpl; auto;
    rewrite (int_raises _ _ E); auto.
Qed.

Lemma tag_rows_loop rows buff :
  match tag_entries rows with
  | Some es => for_in TagMappings.row buff rows = ((buff ++ es)%list, None)
  | None => ∃ b e, for_in TagMappings.row buff rows = (b, Some e)
                   ∧ (e = IndexError ∨ e = ValueError)
  end.
Proof.
  revert buff. induction rows as [|row rows IH]; intros buff; simpl.
  { by rewrite app_nil_r. }
  destruct (is_header row) eqn:Hh.
  { rewrite (tag_row_header buff row Hh). apply IH. }
  pose proof (tag_row_entry buff row Hh) as Hrow.
  destruct (tag_entry row) as [e|].
  - rewrite Hrow. specialize (IH (buff ++ [e])%list).
    destruct (tag_entries rows) as [es|].
    + by rewrite IH, <- app_assoc.
    + done.
  - destruct Hrow as [-> | ->]; eauto.
Qed.

(** X10: the tag table loads all or nothing.  Rows whose first column is
    [dstport] are skipped wherever they stand; if every other row has at
    least three columns and a numeric first column, the result is the
    list of their entries, in order; if not, [TagMappingsException] is
    raised, and no other exception ever is. *)
Theorem tag_table_loads_all_or_nothing w fname :
  TagMappings.process w fname
  = match tag_entries (read_csv_file w fname) with
    | Some es => Ok es
    | None => Raise TagMappingsException
    end.
Proof.
  unfold TagMappings.process.
  pose proof (tag_rows_loop (read_csv_file w fname) []) as H.
  destruct (tag_entries _) as [es|].
  - by rewrite H.
  - destruct H as (b & e & -> & [-> | ->]); done.
Qed.

Lemma foldl_insert_lookup `{Countable K} {V} (entries : list (K * V))
    (m : gmap K V) (k : K) :
  foldl (λ m e, <[e.1 := e.2]> m) m entries !! k
  = match last_value k entries with
    | Some v => Some v
    | None => m !! k
    end.
Proof.
  unfold last_value. revert m.
  induction entries as [|[k' v] es IH] using rev_ind; intros m; [done|].
  rewrite foldl_app, filter_app. simpl.
  destruct (decide (k' = k)) as [->|Hne].
  - rewrite filter_cons_True by done. rewrite filter_nil, last_snoc. simpl.
    by rewrite lookup_insert_eq.
  - rewrite filter_cons_False by done. rewrite filter_nil, app_nil_r.
    rewrite lookup_insert_ne by done. apply IH.
Qed.

(** X11: loading the tag map is last-write-wins: after a successful
    load, a pair maps to the tag of the last row that names it, and pairs
    no row names keep what they had; a malformed table raises
    [FlowLogParserException] and leaves the parser as it was. *)
Theorem tag_map_is_last_write_wins w self :
  Py.truthy (mapfile self) = true →
  match tag_entries (read_csv_file w (default "" (mapfile self))) with
  | Some es =>
      (read_mappings_file w self).2 = None
      ∧ same_run_state (read_mappings_file w self).1 self
      ∧ ∀ port proto,
          tag_map (read_mappings_file w self).1 !! (port, proto)
          = match last_value (port, proto)
                    (map (λ e, ((e.1.1, e.1.2), e.2)) es) with
            | Some tag => Some tag
            | None => tag_map self !! (port, proto)
            end
  | None => read_mappings_file w self = (self, Some FlowLogParserException)
  end.
Proof.
  intros Hmap. unfold read_mappings_file, TagMappings.process.
  rewrite Hmap. simpl.
  pose proof (tag_rows_loop
                (read_csv_file w (default "" (mapfile self))) []) as Hloop.
  destruct (tag_entries _) as [es|];
    [rewrite Hloop | by destruct Hloop as (b & e & -> & [-> | ->])].
  split; [done|]. split; [done|]. intros port proto. simpl.
  rewrite <- foldl_insert_lookup. f_equal.
  generalize (tag_map self). clear.
  induction es as [|e es IH]; intros m; simpl; [done|]. apply IH.
Qed.

Lemma tag_map_is_last_write_wins_witness :
  let fl := init 2 None (Some "lookup.csv") None None in
  tag_map (read_mappings_file mapping_world fl).1 !! (25, "tcp") = Some "email"
  ∧ tag_map (read_mappings_file mapping_world fl).1 !! (80, "tcp") = None.
Proof.
  intros fl.
  generalize (tag_map_is_last_write_wins mapping_world fl eq_refl).
  assert (tag_entries (read_csv_file mapping_world (default "" (mapfile fl)))
          = Some [(25, "tcp", "sv_P1"); (68, "udp", "sv_P2");
                  (25, "tcp", "email"); (443, "TCP", "secure")]) as ->
    by (vm_compute; reflexivity).
  intros (_ & _ & H). rewrite !H. split; vm_compute; reflexivity.
Defined.

(** ** Letter case *)

Lemma lower_char_idem c : Py.lower_char (Py.lower_char c) = Py.lower_char c.
Proof. destruct c as [[] [] [] [] [] [] [] []]; reflexivity. Qed.

Lemma chars_str l : Py.chars (Py.str l) = l.
Proof. apply list_ascii_of_string_of_list_ascii. Qed.

Lemma lower_idem s : Py.lower (Py.lower s) = Py.lower s.
Proof.
  unfold Py.lower. rewrite chars_str. f_equal.
  induction (Py.chars s) as [|c l IH]; simpl; [done|].
  by rewrite lower_char_idem, IH.
Qed.

Lemma line_key_lower self line port proto :
  line_key self line = Some (port, proto) → Py.lower proto = proto.
Proof.
  unfold line_key. destruct (enough_fields line) eqn:Hlen; [|done].
  rewrite record_key_eq by done.
  destruct (Py.int (field line V2_PROTO_NUM_IDX)) as [n|]; [|done].
  destruct (table self !! n) as [name|]; [|done].
  destruct (Py.int (field line V2_DST_PORT_IDX)) as [p|]; [|done].
  intros [= _ <-]. apply lower_idem.
Qed.

(** X12: a record is only ever counted under a key whose protocol name is
    in lower case, and the tag table is read at that key alone.  So a row
    of the tag table whose protocol name has an upper-case letter tags
    nothing: with or without it, every line has the same key and the same
    tag. *)
Theorem upper_case_rows_tag_nothing self port proto :
  Py.lower proto ≠ proto →
  let self' := set_tag_map (delete (port, proto) (tag_map self)) self in
  ∀ line,
    line_key self line ≠ Some (port, proto)
    ∧ line_key self' line = line_key self line
    ∧ line_tag self' line = line_tag self line.
Proof.
  intros Hup self' line.
  assert (line_key self line ≠ Some (port, proto)) as Hne.
  { intros Hk. by apply Hup, (line_key_lower self line port). }
  assert (line_key self' line = line_key self line) as Hk
    by by apply line_key_table.
  split; [done|]. split; [done|].
  unfold line_tag. rewrite Hk. destruct (line_key self line) as [key|]; [|done].
  simpl. f_equal. unfold resolve_tag, self'. simpl.
  rewrite lookup_delete_ne; [done|]. congruence.
Qed.

Lemma upper_case_rows_tag_nothing_witness :
  let self := (read_mappings_file mapping_world
                 (set_table {[ 6 := "tcp" ]}
                    (init 2 None (Some "lookup.csv") None None))).1 in
  let self' := set_tag_map (delete (443, "TCP") (tag_map self)) self in
  tag_map self !! (443, "TCP") = Some "secure"
  ∧ ∀ line,
      line_key self line ≠ Some (443, "TCP")
      ∧ line_key self' line = line_key self line
      ∧ line_tag self' line = line_tag self line.
Proof.
  intros self self'. split; [vm_compute; reflexivity|].
  apply (upper_case_rows_tag_nothing self 443 "TCP").
  vm_compute. discriminate.
Defined.

(** ** The protocol table *)

Lemma proto_row_entry buff row :
  match proto_entry row with
  | Some e => ProtoMappings.row buff row = Ok (buff ++ [e])%list
  | None => ProtoMappings.row buff row = Raise IndexError
            ∨ ProtoMappings.row buff row = Raise ValueError
  end.
Proof.
  destruct row as [|c0 row]; [by left|].
  unfold ProtoMappings.row, proto_entry.
  cbn [Py.getitem lookup list_lookup mbind result_bind
       IPMF_PORT_IDX IPMF_PROTO_IDX].
  destruct (Py.int c0) as [num|e] eqn:E; cbn [mbind result_bind].
  - destruct row as [|c1 row]; simpl; auto.
  - rewrite (int_raises _ _ E). destruct row; auto.
Qed.

Lemma proto_rows_loop rows buff :
  ∃ e, for_in ProtoMappings.row buff rows = ((buff ++ proto_entries rows)%list, e)
       ∧ (e = None ∨ e = Some IndexError ∨ e = Some ValueError)
       ∧ (Forall (λ r, is_Some (proto_entry r)) rows →
          e = None ∧ length (proto_entries rows) = length rows).
Proof.
  revert buff. induction rows as [|row rows IH]; intros buff; simpl.
  { exists None. rewrite app_nil_r. auto. }
  pose proof (proto_row_entry buff row) as Hrow.
  destruct (proto_entry row) as [e|] eqn:He.
  - rewrite Hrow. destruct (IH (buff ++ [e])%list) as (x & -> & Hx & Hall).
    exists x. rewrite <- app_assoc. split; [done|]. split; [done|].
    intros [_ Hrest]%Forall_cons. destruct (Hall Hrest) as [-> Hlen].
    simpl. by rewrite Hlen.
  - assert (¬ Forall (λ r, is_Some (proto_entry r)) (row :: rows)) as Hnot.
    { intros [[? Hs] _]%Forall_cons. congruence. }
    rewrite app_nil_r.
    destruct Hrow as [-> | ->]; eexists; (split; [done|]); split; auto; done.
Qed.

Lemma proto_entries_lower rows num name :
  (num, name) ∈ proto_entries rows → Py.lower name = name.
Proof.
  induction rows as [|row rows IH]; simpl; [by intros ?%elem_of_nil|].
  destruct (proto_entry row) as [e|] eqn:He; [|by intros ?%elem_of_nil].
  intros [Heq|?]%elem_of_cons; [subst e|auto].
  unfold proto_entry in He. destruct row as [|c0 [|c1 row]]; try done.
  destruct (Py.int c0); [|done]. injection He as _ <-. apply lower_idem.
Qed.

(** X13: the protocol table never loads a wrong entry.  What
    [ProtoMappings.process] returns is the list of the entries of the
    leading rows that have two columns and a numeric first column, with
    the names in lower case; it raises nothing but
    [ProtoMappingsException]; and when every row is such a row, every row
    is loaded. *)
Theorem proto_table_loads_entries w fname :
  let rows := read_csv_file w fname in
  (ProtoMappings.process w fname = Ok (proto_entries rows)
   ∨ ProtoMappings.process w fname = Raise ProtoMappingsException)
  ∧ (Forall (λ r, is_Some (proto_entry r)) rows →
     ProtoMappings.process w fname = Ok (proto_entries rows)
     ∧ length (proto_entries rows) = length rows)
  ∧ (∀ num name, (num, name) ∈ proto_entries rows → Py.lower name = name).
Proof.
  intros rows. unfold ProtoMappings.process. fold rows.
  destruct (proto_rows_loop rows []) as (e & -> & He & Hall). simpl.
  split; [|split].
  - destruct He as [->|[->| ->]]; auto.
  - intros Hrows. by destruct (Hall Hrows) as [-> ?].
  - apply proto_entries_lower.
Qed.

Lemma proto_table_loads_entries_witness :
  ProtoMappings.process mapping_world "protocols.csv"
  = Ok (proto_entries (read_csv_file mapping_world "protocols.csv"))
  ∧ length (proto_entries (read_csv_file mapping_world "protocols.csv"))
    = length (read_csv_file mapping_world "protocols.csv").
Proof.
  apply (proto_table_loads_entries mapping_world "protocols.csv").
  replace (read_csv_file mapping_world "protocols.csv")
    with [["6"; "TCP"]; ["17"; "UDP"]] by (vm_compute; reflexivity).
  apply Forall_cons. split; [eexists; vm_compute; reflexivity|].
  apply Forall_cons. split; [eexists; vm_compute; reflexivity|].
  apply Forall_nil_2.
Defined.

(** X14: loading the protocol table from a file is last-write-wins and
    touches nothing else; it either raises [FlowLogParserException] and
    leaves the parser as it was, or gives each loaded number the name of
    the last loaded row that holds it; and a table whose names were in
    lower case still has all its names in lower case. *)
Theorem proto_table_from_file w self :
  Py.truthy (proto_map_file self) = true →
  let r := read_proto_mappings w self in
  let entries :=
    proto_entries (read_csv_file w (default "" (proto_map_file self))) in
  r = (self, Some FlowLogParserException)
  ∨ (r.2 = None
     ∧ same_run_state r.1 self ∧ tag_map r.1 = tag_map self
     ∧ (∀ num, table r.1 !! num
               = match last_value num entries with
                 | Some name => Some name
                 | None => table self !! num
                 end)
     ∧ (lower_names (table self) → lower_names (table r.1))).
Proof.
  intros Hpmf r entries. subst r.
  pose proof (proto_entries_lower
                (read_csv_file w (default "" (proto_map_file self)))) as Hlow.
  fold entries in Hlow.
  assert (∀ num, foldl (λ t entry, <[entry.1 := entry.2]> t) (table self) entries
                 !! num
                 = match last_value num entries with
                   | Some name => Some name
                   | None => table self !! num
                   end) as Hlook by (intros; apply foldl_insert_lookup).
  assert (lower_names (table self) →
          lower_names (foldl (λ t entry, <[entry.1 := entry.2]> t)
                         (table self) entries)) as Hkeep.
  { intros Hself num name. rewrite Hlook. unfold last_value.
    destruct (last (filter _ entries)) as [[n' name']|] eqn:Hlast; simpl.
    - intros [= <-]. apply (Hlow n').
      apply last_Some in Hlast as [l' Hl'].
      assert ((n', name') ∈ filter (λ e, e.1 = num) entries) as Hin.
      { rewrite Hl'. apply elem_of_app. right. left. }
      by apply list_elem_of_filter in Hin as [_ ?].
    - apply Hself. }
  unfold read_proto_mappings, ProtoMappings.process. rewrite Hpmf.
  destruct (proto_rows_loop
              (read_csv_file w (default "" (proto_map_file self))) [])
    as (e & -> & He & _).
  fold entries.
  destruct He as [->|[->| ->]]; [right|by left|right]; simpl; by repeat split.
Qed.

Lemma proto_table_from_file_witness :
  let r := read_proto_mappings mapping_world
             (init 2 None None None (Some "protocols.csv")) in
  r.2 = None ∧ table r.1 !! 6 = Some "tcp" ∧ lower_names (table r.1).
Proof.
  intros r.
  destruct (proto_table_from_file mapping_world
              (init 2 None None None (Some "protocols.csv")) eq_refl)
    as [H|(H1 & _ & _ & H2 & H3)].
  - exfalso. revert H. vm_compute. discriminate.
  - split; [exact H1|]. split; [rewrite H2; vm_compute; reflexivity|].
    apply H3. intros num name. simpl. by rewrite lookup_empty.
Defined.

(** ** The built-in protocol table *)

Lemma substring_all s : String.substring 0 (String.length s) s = s.
Proof. induction s as [|c s IH]; simpl; [done|]. by rewrite IH. Qed.

Lemma prefix_slice p s :
  String.prefix p s = true →
  (p ++ Py.slice_from (String.length p) s)%string = s.
Proof.
  unfold Py.slice_from. revert s. induction p as [|a p IH]; intros s; simpl.
  - intros _. by rewrite Nat.sub_0_r, substring_all.
  - destruct s as [|b s]; [done|]. simpl.
    destruct (ascii_dec a b) as [->|]; [|done].
    intros Hp.
    change (String b (p +:+ substring (String.length p)
                        (String.length s - String.length p) s) = String b s).
    f_equal. by apply IH.
Qed.

Lemma builtin_fold items (t : gmap Z string) num name :
  foldl (λ t item,
           if Py.startswith item.1 IPPROTO_prefix
           then <[item.2 := Py.slice_from (String.length IPPROTO_prefix) item.1]> t
           else t) t items !! num = Some name →
  t !! num = Some name ∨ ((IPPROTO_prefix ++ name)%string, num) ∈ items.
Proof.
  revert t. induction items as [|[s n] items IH]; intros t; simpl; [by left|].
  intros [Ht|Hin]%IH; [|right; by right].
  destruct (Py.startswith s IPPROTO_prefix) eqn:Hp; [|by left].
  destruct (decide (n = num)) as [->|Hne].
  - rewrite lookup_insert_eq in Ht. injection Ht as <-.
    right. apply elem_of_cons. left. f_equal.
    exact (prefix_slice IPPROTO_prefix s Hp).
  - rewrite lookup_insert_ne in Ht by done. by left.
Qed.

Lemma builtin_fold_some items (t : gmap Z string) s num :
  (s, num) ∈ items → Py.startswith s IPPROTO_prefix = true →
  is_Some (foldl (λ t item,
                    if Py.startswith item.1 IPPROTO_prefix
                    then <[item.2 := Py.slice_from (String.length IPPROTO_prefix)
                                       item.1]> t
                    else t) t items !! num).
Proof.
  intros Hin Hp. revert t.
  induction items as [|[s' n'] items IH] using rev_ind; intros t.
  { by apply elem_of_nil in Hin. }
  rewrite foldl_app. simpl.
  apply elem_of_app in Hin as [Hin|Hin%list_elem_of_singleton].
  - destruct (Py.startswith s' IPPROTO_prefix); [|by apply IH].
    destruct (decide (n' = num)) as [->|Hne].
    + rewrite lookup_insert_eq. eauto.
    + rewrite lookup_insert_ne by done. by apply IH.
  - injection Hin as <- <-. rewrite Hp, lookup_insert_eq. eauto.
Qed.

(** X15: without a protocol file the table is rebuilt from the [socket]
    module and the old table is dropped: every number of the new table is
    the value of an attribute named [IPPROTO_] followed by the name the
    table gives it, every attribute with that prefix has its value in the
    table, and no other attribute contributes. *)
Theorem builtin_table_from_socket w self :
  Py.truthy (proto_map_file self) = false →
  let r := read_proto_mappings w self in
  r.2 = None
  ∧ same_run_state r.1 self ∧ tag_map r.1 = tag_map self
  ∧ (∀ num name, table r.1 !! num = Some name →
                 ((IPPROTO_prefix ++ name)%string, num) ∈ socket_vars w)
  ∧ (∀ s num, (s, num) ∈ socket_vars w →
              Py.startswith s IPPROTO_prefix = true →
              is_Some (table r.1 !! num)).
Proof.
  intros Hpmf r. subst r. unfold read_proto_mappings. rewrite Hpmf. simpl.
  split; [done|]. split; [done|]. split; [done|]. split.
  - intros num name [Hempty|Hin]%builtin_fold; [|done].
    by rewrite lookup_empty in Hempty.
  - intros s num. apply builtin_fold_some.
Qed.

Lemma builtin_table_from_socket_witness :
  let r := read_proto_mappings test_world flp in
  r.2 = None
  ∧ (∀ num name, table r.1 !! num = Some name →
                 ((IPPROTO_prefix ++ name)%string, num) ∈ socket_vars test_world)
  ∧ is_Some (table r.1 !! 17).
Proof.
  intros r.
  destruct (builtin_table_from_socket test_world flp eq_refl)
    as (H1 & _ & _ & H2 & H3).
  split; [exact H1|]. split; [exact H2|].
  apply (H3 "IPPROTO_UDP" 17); [|reflexivity].
  simpl. right. right. left.
Defined.

(** ** The run as a whole *)





(** X17: a table that cannot be loaded stops the run before the streaming
    stage.  With a malformed tag table, [main] ends normally with the
    parser as the constructor made it: the protocol table is not even
    read.  With a protocol table that raises, it ends with the parser
    the tag loading left.  Either way nothing is counted and nothing is
    written. *)
Theorem load_error_stops_the_run w version logs mappings output pmf :
  let fl0 := init version logs mappings output pmf in
  (Py.truthy mappings = true →
   tag_entries (read_csv_file w (default "" mappings)) = None →
   main w version logs mappings output pmf = (fl0, w, None))
  ∧ (Py.truthy pmf = true →
     (read_mappings_file w fl0).2 = None →
     ProtoMappings.process w (default "" pmf) = Raise ProtoMappingsException →
     main w version logs mappings output pmf
     = ((read_mappings_file w fl0).1, w, None)
     ∧ tag_count (read_mappings_file w fl0).1 = ∅
     ∧ combinations_count (read_mappings_file w fl0).1 = ∅).
Proof.
  intros fl0. split.
  - intros Hmap Hbad. unfold main, main_stages. fold fl0.
    unfold read_mappings_file, TagMappings.process. simpl mapfile.
    rewrite Hmap. simpl negb. cbv iota.
    pose proof (tag_rows_loop (read_csv_file w (default "" mappings)) [])
      as Hloop.
    rewrite Hbad in Hloop. by destruct Hloop as (b & e & -> & [-> | ->]).
  - intros Hpmf Hload Hbad. unfold main, main_stages. fold fl0.
    destruct (read_mappings_file_same w fl0) as [(_ & _ & Hp & Ht & Hc & _) _].
    destruct (read_mappings_file w fl0) as [fl1 e1]. simpl in *. subst e1.
    unfold read_proto_mappings. rewrite Hp. simpl proto_map_file.
    rewrite Hpmf, Hbad. by rewrite Ht, Hc.
Qed.

Lemma load_error_stops_the_run_witness :
  main mapping_world 2 (Some "flow.log") (Some "short.csv") (Some "out.txt") None
  = (init 2 (Some "flow.log") (Some "short.csv") (Some "out.txt") None,
     mapping_world, None).
Proof.
  apply (proj1 (load_error_stops_the_run mapping_world 2 (Some "flow.log")
                  (Some "short.csv") (Some "out.txt") None));
    vm_compute; reflexivity.
Defined.

(** ** The report *)

Lemma outputfile_kept self w :
  outputfile (analyze_flow_logs w self).1.1 = outputfile self.
Proof.
  apply (analyze_flow_logs_invariant (λ s, outputfile s = outputfile self));
    [|done].
  intros s line s' Hs [[key ->]| ->]%analyze_line_Ok; [|done].
  unfold record. by destruct (tag_map s !! key).
Qed.

Lemma analyze_flow_logs_world w self :
  let r := analyze_flow_logs w self in
  r.1.2 = w
  ∨ (Py.truthy (outputfile self) = true
     ∧ r.2 = None
     ∧ r.1.2 = write_report (default "" (outputfile self))
                 {| report_tag_count := tag_count r.1.1;
                    report_combinations_count := combinations_count r.1.1 |} w).
Proof.
  intros r. pose proof (outputfile_kept self w) as Hout. subst r.
  unfold analyze_flow_logs in *. destruct (negb _); [by left|].
  destruct (text_files w !! _) as [lines|]; [|by left]. simpl in *.
  unfold _write_output_file. rewrite Hout.
  destruct (Py.truthy (outputfile self)); [by right | by left].
Qed.


(** ** The custom parser *)

Lemma default_class_driver w self :
  GenericFlowLogParser.analyze_flow_logs _analyze_flow_logs w self
  = analyze_flow_logs w self.
Proof. reflexivity. Qed.



(** ** Concurrent callers against the sequential run *)

Lemma all_todo_same pool i th th' :
  pool !! i = Some th → todo th' = todo th →
  concat (map todo (<[i := th']> pool)) = concat (map todo pool).
Proof.
  revert i. induction pool as [|x pool IH]; intros [|i] Hi Ht; simpl in *;
    try done.
  - injection Hi as ->. by rewrite Ht.
  - by rewrite (IH i).
Qed.

Lemma all_todo_pop pool i th th' line :
  pool !! i = Some th → todo th = line :: todo th' →
  concat (map todo pool) ≡ₚ line :: concat (map todo (<[i := th']> pool)).
Proof.
  revert i. induction pool as [|x pool IH]; intros [|i] Hi Ht; simpl in *;
    try done.
  - injection Hi as ->. by rewrite Ht.
  - rewrite (IH i Hi Ht). by rewrite Permutation_middle.
Qed.

Lemma with_half_only self0 pool i th s :
  pool !! i = Some th →
  (∀ j thj, j ≠ i → pool !! j = Some thj → at_pc thj = Outside) →
  foldr (with_half self0) s pool = with_half self0 th s.
Proof.
  revert i. induction pool as [|x pool IH]; intros [|i] Hi Hothers; simpl in *;
    try done.
  - injection Hi as ->.
    assert (foldr (with_half self0) s pool = s) as ->; [|done].
    assert (∀ j thj, pool !! j = Some thj → at_pc thj = Outside) as Hall.
    { intros j thj Hj. by apply (Hothers (S j)). }
    clear -Hall. induction pool as [|y pool IH]; simpl; [done|].
    rewrite IH by (intros j thj Hj; by apply (Hall (S j))).
    unfold with_half, half_key. by rewrite (Hall 0%nat y).
  - rewrite (IH i Hi) by (intros j thj Hne Hj; apply (Hothers (S j)); [lia|done]).
    unfold with_half at 1. unfold half_key.
    by rewrite (Hothers 0%nat x) by done.
Qed.

Lemma with_half_set self0 pool i th th' s :
  pool !! i = Some th →
  (∀ j thj, j ≠ i → pool !! j = Some thj → at_pc thj = Outside) →
  foldr (with_half self0) s (<[i := th']> pool) = with_half self0 th' s.
Proof.
  intros Hi Hothers.
  assert (i < length pool)%nat as Hlen by by eapply lookup_lt_Some.
  apply (with_half_only self0 _ i).
  - by apply list_lookup_insert_eq.
  - intros j thj Hne Hj. rewrite list_lookup_insert_ne in Hj by done.
    by apply (Hothers j).
Qed.

Lemma record_two_updates self0 key s :
  tag_map s = tag_map self0 →
  set_combinations_count
    (Py.incr key (combinations_count (first_update self0 key s)))
    (first_update self0 key s)
  = record key s.
Proof. intros Hm. rewrite record_unfold, Hm. done. Qed.

(** A move keeps the shared object in step with a sequential run. *)
Lemma move_serial self0 all c i th th' o' own' :
  lock_inv self0 c → pool c !! i = Some th →
  move self0 c i th th' o' own' →
  serial_inv self0 all c → serial_inv self0 all (set_thread i th' o' own' c).
Proof.
  intros HI Hi Hmove (fin & Hperm & Hobj).
  assert (at_pc th ≠ Outside ∨ lock_owner c = None) as Hlock.
  { destruct Hmove; try (left; congruence). by right. }
  pose proof (others_outside self0 c i th HI Hi Hlock) as Hothers.
  rewrite (with_half_only self0 (pool c) i th _ Hi Hothers) in Hobj.
  pose proof (inv_pc _ _ HI i th Hi) as Hpc. unfold pc_ok in Hpc.
  set (E := foldl (λ s line, line_effect self0 line s) self0 fin) in *.
  assert (tag_map E = tag_map self0) as HmE by apply effects_tag_map.
  unfold serial_inv, all_todo. simpl pool. simpl obj.
  destruct Hmove as [lines calls Hp Hls Hcs Hfree|Hp Hls|line rest key Hp Hls Hk
    |line rest Hp Hls Hk|line rest key tag v Hp Hls Hk|line rest key Hp Hls Hk
    |line rest key v Hp Hls Hk|line rest v Hp Hls Hk].
  - exists fin. rewrite (all_todo_same _ i th), (with_half_set self0 _ i th)
      by (done || unfold todo; simpl; by rewrite Hls, Hcs).
    split; [done|]. rewrite Hobj. unfold with_half, half_key. simpl. by rewrite Hp.
  - exists fin. rewrite (all_todo_same _ i th), (with_half_set self0 _ i th)
      by (done || unfold todo; simpl; by rewrite Hls).
    split; [done|]. rewrite Hobj. unfold with_half, half_key. simpl. by rewrite Hp.
  - exists fin. rewrite (all_todo_same _ i th), (with_half_set self0 _ i th)
      by (done || unfold todo; simpl; by rewrite Hls).
    split; [done|]. rewrite Hobj. unfold with_half, half_key. simpl. by rewrite Hp.
  - exists fin. rewrite (all_todo_same _ i th), (with_half_set self0 _ i th)
      by (done || unfold todo; simpl; by rewrite Hls).
    split; [done|]. rewrite Hobj. unfold with_half, half_key. simpl. by rewrite Hp.
  - exists fin. rewrite (all_todo_same _ i th), (with_half_set self0 _ i th)
      by (done || unfold todo; simpl; by rewrite Hls).
    split; [done|]. rewrite Hobj. unfold with_half, half_key. simpl.
    rewrite Hp in *. destruct Hpc as (-> & _). done.
  - exists fin. rewrite (all_todo_same _ i th), (with_half_set self0 _ i th)
      by (done || unfold todo; simpl; by rewrite Hls).
    split; [done|]. rewrite Hobj. unfold with_half, half_key. simpl. by rewrite Hp.
  - exists (fin ++ [line])%list.
    rewrite (with_half_set self0 _ i th) by done. split.
    + rewrite <- Hperm, <- app_assoc. apply Permutation_app_head. simpl.
      symmetry. apply (all_todo_pop _ i th); [done|].
      unfold todo. simpl. by rewrite Hls.
    + rewrite foldl_app. simpl. fold E. unfold line_effect. rewrite Hk.
      unfold with_half at 1. unfold half_key at 1. simpl.
      rewrite Hobj. unfold with_half, half_key. rewrite Hp.
      by apply record_two_updates.
  - exists (fin ++ [line])%list.
    rewrite (with_half_set self0 _ i th) by done. split.
    + rewrite <- Hperm, <- app_assoc. apply Permutation_app_head. simpl.
      symmetry. apply (all_todo_pop _ i th); [done|].
      unfold todo. simpl. by rewrite Hls.
    + rewrite foldl_app. simpl. fold E. unfold line_effect. rewrite Hk.
      unfold with_half at 1. unfold half_key at 1. simpl.
      rewrite Hobj. unfold with_half, half_key. by rewrite Hp.
Qed.

Lemma run_serial self0 all sched c :
  lock_inv self0 c → serial_inv self0 all c →
  serial_inv self0 all (run sched c).
Proof.
  unfold run. revert c. induction sched as [|i sched IH]; intros c HI HS; [done|].
  simpl. apply IH; [apply (step_keeps self0 c i HI)|].
  destruct (pool c !! i) as [th|] eqn:Hi.
  - destruct (step_cases self0 c i th HI Hi)
      as [[-> _]|(th' & o' & own' & -> & Hmove)]; [done|].
    by eapply move_serial.
  - unfold thread_step. by rewrite Hi.
Qed.

Lemma start_all_todo self0 work :
  all_todo (start self0 work) = concat (concat work).
Proof.
  unfold all_todo. simpl. induction work as [|calls work IH]; simpl; [done|].
  rewrite IH. unfold todo. simpl. by rewrite concat_app.
Qed.

Lemma start_serial self0 work :
  serial_inv self0 (concat (concat work)) (start self0 work).
Proof.
  exists []. rewrite start_all_todo. split; [done|]. simpl.
  induction work as [|calls work IH]; simpl; [done|]. by rewrite <- IH.
Qed.

(** X20: callers that run [_analyze_flow_logs] concurrently on one
    parser, with batches whose lines never miss the table, end as one
    caller would.  Every interleaving of their steps can be continued
    until all callers are done; and once they are, the shared parser is
    exactly the parser that processing all the batches one after the
    other, caller by caller, would leave, and the lock is free. *)
Theorem concurrent_run_is_sequential self0 work :
  (∀ calls line, calls ∈ work → line ∈ concat calls →
                 lookup_fails (table self0) line = false) →
  (∀ sched, ∃ more, finished (run (sched ++ more) (start self0 work)) = true)
  ∧ (∀ sched,
       finished (run sched (start self0 work)) = true →
       obj (run sched (start self0 work)) = submit_all self0 (concat work)
       ∧ lock_owner (run sched (start self0 work)) = None).
Proof.
  intros Hknown.
  pose proof (start_lock_inv self0 work Hknown) as Hstart.
  split.
  - intros sched. destruct (run_keeps self0 sched _ Hstart) as (HI & _).
    destruct (can_finish self0 _ HI) as [more Hmore].
    exists more. by rewrite run_app.
  - intros sched Hfin.
    destruct (run_keeps self0 sched _ Hstart) as (HI & _).
    split; [|by apply (finished_lock_free self0)].
    destruct (run_serial self0 _ sched _ Hstart (start_serial self0 work))
      as (fin & Hperm & Hobj).
    assert (∀ i th, pool (run sched (start self0 work)) !! i = Some th →
                    at_pc th = Outside ∧ todo th = []) as Hdone.
    { intros i th Hi. by apply (finished_thread self0 _ i th HI Hfin). }
    assert (all_todo (run sched (start self0 work)) = []) as Hnone.
    { unfold all_todo. clear -Hdone.
      induction (pool (run sched (start self0 work))) as [|th l IH]; [done|].
      simpl. destruct (Hdone 0%nat th eq_refl) as [_ ->]. simpl.
      apply IH. intros i th' Hi. by apply (Hdone (S i)). }
    assert (foldr (with_half self0)
              (foldl (λ s line, line_effect self0 line s) self0 fin)
              (pool (run sched (start self0 work)))
            = foldl (λ s line, line_effect self0 line s) self0 fin) as Hclean.
    { generalize (foldl (λ s line, line_effect self0 line s) self0 fin).
      clear -Hdone. intros s.
      induction (pool (run sched (start self0 work))) as [|th l IH]; [done|].
      simpl. rewrite IH by (intros i th' Hi; by apply (Hdone (S i))).
      unfold with_half, half_key.
      by destruct (Hdone 0%nat th eq_refl) as [-> _]. }
    rewrite Hobj, Hclean. rewrite Hnone, app_nil_r in Hperm.
    rewrite (effects_permutation self0 fin (concat (concat work)) self0 Hperm).
    rewrite (submit_all_reaches self0 self0) by done. f_equal.
    assert (∀ calls, calls ∈ work →
              concat (map (before_failure (table self0)) calls) = concat calls)
      as Hcalls.
    { intros calls Hin. f_equal.
      assert (∀ b, b ∈ calls → before_failure (table self0) b = b) as Hb.
      { intros b Hbin. apply before_failure_all. intros line Hl.
        apply (Hknown calls line Hin). apply elem_of_concat. eauto. }
      clear -Hb. induction calls as [|b bs IH]; simpl; [done|].
      rewrite Hb by left. f_equal. apply IH. intros ??. apply Hb. by right. }
    clear -Hcalls. induction work as [|calls work IH]; simpl; [done|].
    rewrite map_app, !concat_app, Hcalls by left. f_equal.
    apply IH. intros ??. apply Hcalls. by right.
Qed.

Lemma concurrent_run_is_sequential_witness :
  obj (run sample_schedule (start flp two_callers))
  = submit_all flp (concat two_callers)
  ∧ lock_owner (run sample_schedule (start flp two_callers)) = None.
Proof.
  apply (concurrent_run_is_sequential flp two_callers).
  - intros calls line Hcalls Hline. unfold two_callers in Hcalls.
    repeat (apply elem_of_cons in Hcalls as [->|Hcalls];
            [simpl in Hline;
             repeat (apply elem_of_cons in Hline as [->|Hline];
                     [vm_compute; reflexivity|]);
             by apply elem_of_nil in Hline|]).
    by apply elem_of_nil in Hcalls.
  - vm_compute. reflexivity.
Defined.


(** ** The fields of a line *)

Lemma str_nonempty c l : Py.str (c :: l) ≠ "".
Proof. done. Qed.

Lemma split_go_fields cur l f :
  (∀ c, c ∈ cur → Py.isspace c = false) →
  f ∈ Py.split_go cur l →
  f ≠ "" ∧ ∀ c, c ∈ Py.chars f → Py.isspace c = false.
Proof.
  assert (∀ cur : list ascii, cur ≠ [] →
            (∀ c, c ∈ cur → Py.isspace c = false) →
            Py.str (rev cur) ≠ ""
            ∧ ∀ c, c ∈ Py.chars (Py.str (rev cur)) → Py.isspace c = false)
    as Hword.
  { intros cur0 Hne Hcur. rewrite chars_str. split.
    - destruct (rev cur0) as [|c r] eqn:E; [|done].
      apply (f_equal (@rev ascii)) in E. rewrite rev_involutive in E. done.
    - intros c Hc. apply Hcur.
      by apply list_elem_of_In, in_rev, list_elem_of_In. }
  revert cur. induction l as [|c l IH]; intros cur Hcur; simpl.
  - destruct cur as [|a cur]; [by intros ?%elem_of_nil|].
    intros ->%list_elem_of_singleton. by apply Hword.
  - destruct (Py.isspace c) eqn:Hc.
    + destruct cur as [|a cur].
      * apply IH. by intros ? ?%elem_of_nil.
      * intros [->|Hf]%elem_of_cons; [by apply Hword|].
        revert Hf. apply IH. by intros ? ?%elem_of_nil.
    + apply IH. intros x [->|?]%elem_of_cons; auto.
Qed.

Lemma split_go_leading cur l :
  cur = [] → Py.split_go cur (Py.dropwhile Py.isspace l) = Py.split_go cur l.
Proof.
  intros ->. induction l as [|c l IH]; simpl; [done|].
  destruct (Py.isspace c) eqn:Hc; [done|]. simpl. by rewrite Hc.
Qed.

Lemma split_go_blank_end cur l c :
  Py.isspace c = true → Py.split_go cur (l ++ [c]) = Py.split_go cur l.
Proof.
  intros Hc. revert cur. induction l as [|a l IH]; intros cur; simpl.
  - rewrite Hc. by destruct cur.
  - destruct (Py.isspace a); [|apply IH]. destruct cur; by rewrite IH.
Qed.

Lemma split_go_trailing cur l :
  Py.split_go cur (rev (Py.dropwhile Py.isspace (rev l))) = Py.split_go cur l.
Proof.
  induction l as [|c l IH] using rev_ind; [done|].
  rewrite rev_app_distr. simpl.
  destruct (Py.isspace c) eqn:Hc.
  - by rewrite IH, split_go_blank_end.
  - simpl. by rewrite rev_involutive.
Qed.

(** X21: the fields of a line are its maximal runs of non-blank
    characters: no field is empty and no field holds a blank, so [int]
    finds nothing to strip in a field; and stripping the line before
    splitting it changes nothing. *)
Theorem fields_hold_no_blank line :
  Py.split (Py.strip line) = Py.split line
  ∧ ∀ f, f ∈ fields_of line →
         f ≠ "" ∧ ∀ c, c ∈ Py.chars f → Py.isspace c = false.
Proof.
  split.
  - unfold Py.split, Py.strip, Py.strip_by. rewrite chars_str.
    by rewrite split_go_trailing, split_go_leading.
  - intros f.  unfold fields_of, Py.split.
    apply split_go_fields. by intros ? ?%elem_of_nil.
Qed.

Lemma fields_hold_no_blank_witness :
  "443" ≠ "" ∧ ∀ c, c ∈ Py.chars "443" → Py.isspace c = false.
Proof.
  apply (proj2 (fields_hold_no_blank line_49153) "443").
  apply (bool_decide_unpack _). vm_compute. exact I.
Defined.

(** ** From the log to the report *)



